(** * pymap: a project-wide function registry and best-effort call graph

    Shallow embedding of [generate_mapping.py]: the module namer, the
    definition and import collector, the name resolver, the call graph
    builder and the report renderer, followed by the properties of the
    specification that they satisfy (or fail to satisfy). *)

From Stdlib Require Import Ascii String.
From stdpp Require Import base option list sorting strings pretty gmap.

Local Open Scope string_scope.
Local Open Scope list_scope.
#[local] Set Warnings "-clear-no-such-hyp".

(** Closed goals about concrete projects are settled by evaluation. *)
Ltac evaluate := vm_compute; first [reflexivity | done].

(** * Part I: the program and the notions of its specification *)

(** ** Python string operations used by the program *)

Module Str.

(** [s.startswith(p)] *)
Fixpoint startswith (s p : string) {struct p} : bool :=
  match p, s with
  | EmptyString, _ => true
  | String a p', String b s' => Ascii.eqb a b && startswith s' p'
  | String _ _, EmptyString => false
  end.

(** [s.endswith(p)]: [p] equals one of the suffixes of [s]. *)
Fixpoint endswith (s p : string) : bool :=
  if String.eqb s p then true
  else match s with
       | EmptyString => false
       | String _ s' => endswith s' p
       end.

(** [s.split(sep)] for a one-character separator; the result is never
    empty. *)
Fixpoint split (sep : ascii) (s : string) : list string :=
  match s with
  | EmptyString => [EmptyString]
  | String a s' =>
      if Ascii.eqb a sep then EmptyString :: split sep s'
      else match split sep s' with
           | h :: t => String a h :: t
           | [] => [String a EmptyString]
           end
  end.

(** [sep.join(parts)] *)
Definition join (sep : string) (parts : list string) : string :=
  String.concat sep parts.

(** [s[:-k]] *)
Definition drop_end (k : nat) (s : string) : string :=
  String.substring 0 (String.length s - k) s.

(** [x or y] on strings that may be [None]: the empty string is falsy. *)
Definition or_else (x : option string) (y : string) : string :=
  match x with
  | Some s => if String.eqb s "" then y else s
  | None => y
  end.

(** No occurrence of the character [c] in [s]. *)
Fixpoint free_of (c : ascii) (s : string) : bool :=
  match s with
  | EmptyString => true
  | String a s' => negb (Ascii.eqb a c) && free_of c s'
  end.

(** [s.lstrip(chars)]: the leading characters that are in [chars] go. *)
Fixpoint lstrip (chars : list ascii) (s : string) : string :=
  match s with
  | EmptyString => EmptyString
  | String a s' => if bool_decide (a ∈ chars) then lstrip chars s' else s
  end.

(** [s.rstrip(chars)]: the trailing characters that are in [chars] go. *)
Fixpoint rstrip (chars : list ascii) (s : string) : string :=
  match s with
  | EmptyString => EmptyString
  | String a s' =>
      let r := rstrip chars s' in
      if String.eqb r "" && bool_decide (a ∈ chars) then EmptyString
      else String a r
  end.

End Str.

(** ** The syntax trees of the analysed files

    The part of Python's [ast] that the program inspects.  A node of any
    kind the program never looks at ([Return], [BinOp], [Lambda],
    [Subscript], [keyword], [comprehension], ...) is an [Other] node that
    carries its child nodes; expression contexts ([Load], [Store]), which
    have no children and are no calls, are left out.  [arg], [arguments] and [alias] are records,
    as the program reads their fields; a [FunctionDef] or
    [AsyncFunctionDef] node is [Def] with its class and its fields. *)

Record ast_arg (A : Type) := mk_arg {
  arg : string;
  annotation : option A
}.
Arguments mk_arg {A} _ _.
Arguments arg {A} _.
Arguments annotation {A} _.

Record ast_arguments (A : Type) := mk_arguments {
  posonlyargs : list (ast_arg A);
  args : list (ast_arg A);
  vararg : option (ast_arg A);
  kwonlyargs : list (ast_arg A);
  kw_defaults : list (option A);
  kwarg : option (ast_arg A);
  defaults : list A
}.
Arguments mk_arguments {A} _ _ _ _ _ _ _.
Arguments posonlyargs {A} _.
Arguments args {A} _.
Arguments vararg {A} _.
Arguments kwonlyargs {A} _.
Arguments kw_defaults {A} _.
Arguments kwarg {A} _.
Arguments defaults {A} _.

(** The fields shared by [FunctionDef] and [AsyncFunctionDef]. *)
Record ast_def (A : Type) := mk_def {
  def_name : string;
  def_args : ast_arguments A;
  def_body : list A;
  def_decorator_list : list A;
  def_returns : option A
}.
Arguments mk_def {A} _ _ _ _ _.
Arguments def_name {A} _.
Arguments def_args {A} _.
Arguments def_body {A} _.
Arguments def_decorator_list {A} _.
Arguments def_returns {A} _.

Record ast_alias := mk_alias {
  alias_name : string;
  alias_asname : option string
}.

(** The two classes of definition nodes; the program treats them alike. *)
Inductive def_kind := FunctionDef | AsyncFunctionDef.

#[local] Unset Elimination Schemes.
Inductive node : Type :=
  | Name (id : string)
  | Attribute (value : node) (attr : string)
  | Call (func : node) (call_args : list node) (keywords : list node)
  | Def (kind : def_kind) (d : ast_def node)
  | ClassDef (name : string) (bases : list node) (keywords : list node)
             (body : list node) (decorator_list : list node)
  | Import (names : list ast_alias)
  | ImportFrom (module : option string) (names : list ast_alias) (level : nat)
  | Other (children : list node).
#[local] Set Elimination Schemes.

(** [f] applied to the child nodes below an [arguments] node, in field
    order. *)
Definition arg_bind {A B} (f : A → list B) (a : ast_arg A) : list B :=
  match annotation a with Some t => f t | None => [] end.

Definition arguments_bind {A B} (f : A → list B) (a : ast_arguments A) : list B :=
  flat_map (arg_bind f) (posonlyargs a) ++
  flat_map (arg_bind f) (args a) ++
  match vararg a with Some v => arg_bind f v | None => [] end ++
  flat_map (arg_bind f) (kwonlyargs a) ++
  flat_map (λ o, match o with Some t => f t | None => [] end) (kw_defaults a) ++
  match kwarg a with Some v => arg_bind f v | None => [] end ++
  flat_map f (defaults a).

Definition def_bind {A B} (f : A → list B) (d : ast_def A) : list B :=
  arguments_bind f (def_args d) ++
  flat_map f (def_body d) ++
  flat_map f (def_decorator_list d) ++
  match def_returns d with Some t => f t | None => [] end.

(** [ast.iter_child_nodes]; the [arguments] and [arg] nodes in between are
    skipped over, their own children are listed. *)
Definition iter_child_nodes (n : node) : list node :=
  match n with
  | Name _ => []
  | Attribute v _ => [v]
  | Call f a k => f :: a ++ k
  | Def _ d => def_bind (λ c, [c]) d
  | ClassDef _ bases kw body decos => bases ++ kw ++ body ++ decos
  | Import _ => []
  | ImportFrom _ _ _ => []
  | Other c => c
  end.

(** [ast.walk]: the node itself and all its descendants.  The library
    yields them "in no specified order"; the program only collects a set
    from them. *)
Fixpoint walk (n : node) : list node :=
  n :: match n with
       | Name _ => []
       | Attribute v _ => walk v
       | Call f a k => walk f ++ flat_map walk a ++ flat_map walk k
       | Def _ d => def_bind walk d
       | ClassDef _ bases kw body decos =>
           flat_map walk bases ++ flat_map walk kw ++
           flat_map walk body ++ flat_map walk decos
       | Import _ => []
       | ImportFrom _ _ _ => []
       | Other c => flat_map walk c
       end.

(** Number of nodes of a tree. *)
Fixpoint node_size (n : node) : nat :=
  S (match n with
     | Name _ => 0
     | Attribute v _ => node_size v
     | Call f a k =>
         node_size f + list_sum (map node_size a) + list_sum (map node_size k)
     | Def _ d =>
         list_sum (def_bind (λ c, [node_size c]) d)
     | ClassDef _ bases kw body decos =>
         list_sum (map node_size bases) + list_sum (map node_size kw) +
         list_sum (map node_size body) + list_sum (map node_size decos)
     | Import _ => 0
     | ImportFrom _ _ _ => 0
     | Other c => list_sum (map node_size c)
     end).

(** [m] lies in the tree rooted at [n], at any depth. *)
Inductive within (n : node) : node → Prop :=
  | within_self : within n n
  | within_child c m : c ∈ iter_child_nodes n → within c m → within n m.

(** ** The analysis state *)

(** A definition node, as the registry holds it: a [FunctionDef] or an
    [AsyncFunctionDef] with its fields. *)
Abbreviation def_node := (def_kind * ast_def node)%type.

Definition as_node (f : def_node) : node := Def f.1 f.2.

(** [all_functions]: qualified name to [(file_path, node, class_name)]. *)
Abbreviation registry := (gmap string (string * def_node * option string)).

(** [module_imports]: module to [{alias: real_module}]. *)
Abbreviation alias_tables := (gmap string (gmap string string)).

(** [symbol_imports]: module to [{local_name: (from_module, name)}]; the
    module of [from . import x] is [None]. *)
Abbreviation symbol_tables := (gmap string (gmap string (option string * string))).

(** What [collect_functions_and_imports] returns, together with the lines
    it sends to [logging.error]. *)
Record collected := mk_collected {
  all_functions : registry;
  module_imports : alias_tables;
  symbol_imports : symbol_tables;
  error_log : list string
}.

(** The value of [function_details[qname]]. *)
Record details := mk_details {
  d_args : list (string * string);
  d_return : string;
  d_calls : gset string
}.

(** [os.sep], on POSIX. *)
Definition os_sep : ascii := "/"%char.

Definition dot : ascii := "."%char.

Definition nl : string := String (ascii_of_nat 10) "".

(** [qname.split(".")[-1]]; the list that [split] returns has a last
    element. *)
Definition last_segment (qname : string) : string :=
  default "" (last (Str.split dot qname)).

(** ** The passes of [generate_mapping.py] *)

Section passes.

(** The environment: [os.path.relpath], reading and parsing a file
    ([inl e] when [open], [read] or [ast.parse] raises [e], [inr body]
    for the [body] of the parsed module), and [ast.unparse]. *)
Variable relpath : string → string → string.
Variable parse_file : string → string + list node.
Variable unparse : node → string.

Definition get_arg_type (a : ast_arg node) : string :=
  match annotation a with
  | Some t => unparse t
  | None => "Any"
  end.

Definition get_return_type (f : def_node) : string :=
  match def_returns f.2 with
  | Some t => unparse t
  | None => "Any"
  end.

(** [None] stands for the [IndexError] of [parts[-1]]. *)
Definition get_module_name (file_path root : string) : option string :=
  let rel := relpath file_path root in
  let parts := Str.split os_sep rel in
  last_part ← last parts;
  let parts :=
    if Str.endswith last_part ".py"
    then <[length parts - 1 := Str.drop_end 3 last_part]> parts
    else parts in
  last_part ← last parts;
  let parts :=
    if String.eqb last_part "__init__"
    then take (length parts - 1) parts
    else parts in
  Some (Str.join "." parts).

(** The module name as the passes use it; [get_module_name] never
    fails, see [get_module_name_total]. *)
Definition module_name (file_path root : string) : string :=
  default "" (get_module_name file_path root).

(** *** Pass 1: collection *)

Definition register (qname : string) (e : string * def_node * option string)
    (st : collected) : collected :=
  mk_collected (<[qname := e]> (all_functions st))
               (module_imports st) (symbol_imports st) (error_log st).

(** [for item in node.body], inside a class [class_name] *)
Definition collect_method (file_path module class_name : string)
    (st : collected) (item : node) : collected :=
  match item with
  | Def k d =>
      register (module +:+ "." +:+ class_name +:+ "." +:+ def_name d)
               (file_path, (k, d), Some class_name) st
  | _ => st
  end.

(** [module_imports[module][alias.asname or alias.name] = alias.name] *)
Definition collect_import (module : string) (st : collected) (a : ast_alias)
    : collected :=
  mk_collected (all_functions st)
    (alter (insert (Str.or_else (alias_asname a) (alias_name a)) (alias_name a))
           module (module_imports st))
    (symbol_imports st) (error_log st).

(** [symbol_imports[module][local] = (mod, alias.name)] *)
Definition collect_import_from (module : string) (mod_ : option string)
    (st : collected) (a : ast_alias) : collected :=
  mk_collected (all_functions st) (module_imports st)
    (alter (insert (Str.or_else (alias_asname a) (alias_name a))
                   (mod_, alias_name a))
           module (symbol_imports st))
    (error_log st).

(** [for node in tree.body] *)
Definition collect_node (file_path module : string)
    (st : collected) (n : node) : collected :=
  match n with
  | Def k d =>
      register (module +:+ "." +:+ def_name d) (file_path, (k, d), None) st
  | ClassDef class_name _ _ body _ =>
      foldl (collect_method file_path module class_name) st body
  | Import names => foldl (collect_import module) st names
  | ImportFrom mod_ names _ => foldl (collect_import_from module mod_) st names
  | _ => st
  end.

(** [for file_path in py_files] *)
Definition collect_file (root : string) (st : collected) (file_path : string)
    : collected :=
  let module := module_name file_path root in
  let st := mk_collected (all_functions st)
              (<[module := ∅]> (module_imports st))
              (<[module := ∅]> (symbol_imports st))
              (error_log st) in
  match parse_file file_path with
  | inl e =>
      mk_collected (all_functions st) (module_imports st) (symbol_imports st)
        (error_log st ++ ["Failed to parse " +:+ file_path +:+ ": " +:+ e])
  | inr body => foldl (collect_node file_path module) st body
  end.

Definition collect_functions_and_imports (py_files : list string)
    (root : string) : collected :=
  foldl (collect_file root) (mk_collected ∅ ∅ ∅ []) py_files.

(** *** The name resolver *)

(** Step 1: [candidate.startswith(current_module + ".") and
    candidate.split(".")[-1] == name] *)
Definition local_match (name current_module candidate : string) : bool :=
  Str.startswith candidate (current_module +:+ ".") &&
  String.eqb (last_segment candidate) name.

(** Step 2: [k.endswith(f".{orig_name}") and k.startswith(from_mod or "")] *)
Definition import_match (from_mod : option string) (orig_name k : string)
    : bool :=
  Str.endswith k ("." +:+ orig_name) &&
  Str.startswith k (Str.or_else from_mod "").

Definition resolve_function_name (name current_module : string)
    (module_imports : alias_tables) (symbol_imports : symbol_tables)
    (all_functions : registry) (symbol_to_func : gmap string (gset string))
    : option (gset string) :=
  let possible :=
    filter (λ candidate, local_match name current_module candidate = true)
           (dom all_functions) in
  if bool_decide (possible ≠ ∅) then Some possible
  else
    let global := symbol_to_func !! name in
    match default ∅ (symbol_imports !! current_module) !! name with
    | Some (from_mod, orig_name) =>
        let resolved :=
          filter (λ k, import_match from_mod orig_name k = true)
                 (dom all_functions) in
        if bool_decide (resolved ≠ ∅) then Some resolved else global
    | None => global
    end.

(** *** Pass 2: the call graph *)

(** [symbol_to_func.setdefault(short, set()).add(qname)] for every key
    of the registry. *)
Definition reverse_index (all_functions : registry)
    : gmap string (gset string) :=
  map_fold (λ qname _ symbol_to_func,
              let short := last_segment qname in
              <[short := default ∅ (symbol_to_func !! short) ∪ {[qname]}]>
                symbol_to_func)
           ∅ all_functions.

(** The bare name of a call, from [call_node.func]. *)
Definition callee_name (func : node) : option string :=
  match func with
  | Name id => Some id
  | Attribute value attr =>
      match value with
      | Name _ => Some attr
      | _ => None
      end
  | _ => None
  end.

(** [called.update(r for r in resolved if r in all_functions)], under
    the guard [resolved and any(r in all_functions for r in resolved)]. *)
Definition keep_resolved (all_functions : registry)
    (resolved : option (gset string)) (called : gset string) : gset string :=
  match resolved with
  | Some resolved =>
      if bool_decide (resolved ≠ ∅) &&
         bool_decide (set_Exists (λ r, r ∈ dom all_functions) resolved)
      then called ∪ filter (λ r, r ∈ dom all_functions) resolved
      else called
  | None => called
  end.

(** The body of [for call_node in ast.walk(node)]. *)
Definition visit_call (module : string) (module_imports : alias_tables)
    (symbol_imports : symbol_tables) (all_functions : registry)
    (symbol_to_func : gmap string (gset string))
    (called : gset string) (call_node : node) : gset string :=
  match call_node with
  | Call func _ _ =>
      match callee_name func with
      | Some name =>
          if String.eqb name "" then called
          else keep_resolved all_functions
                 (resolve_function_name name module module_imports
                    symbol_imports all_functions symbol_to_func)
                 called
      | None => called
      end
  | _ => called
  end.

Definition function_detail (root : string) (module_imports : alias_tables)
    (symbol_imports : symbol_tables) (all_functions : registry)
    (symbol_to_func : gmap string (gset string))
    (e : string * def_node * option string) : details :=
  let '(file_path, f, class_name) := e in
  let module := module_name file_path root in
  mk_details
    (map (λ a, (arg a, get_arg_type a)) (args (def_args f.2)))
    (get_return_type f)
    (foldl (visit_call module module_imports symbol_imports all_functions
              symbol_to_func)
           ∅ (walk (as_node f))).

Definition build_function_call_graph (py_files : list string) (root : string)
    (all_functions : registry) (module_imports : alias_tables)
    (symbol_imports : symbol_tables) : gmap string details :=
  let symbol_to_func := reverse_index all_functions in
  function_detail root module_imports symbol_imports all_functions
    symbol_to_func <$> all_functions.

(** *** The report *)

Definition render_definition (item : string * details) : list string :=
  let '(qname, d) := item in
  let args_str :=
    Str.join ", " (map (λ '(n, t), n +:+ ": " +:+ t) (d_args d)) in
  [ "### `" +:+ qname +:+ "(" +:+ args_str +:+ ") -> " +:+ d_return d +:+ "`";
    if bool_decide (d_calls d ≠ ∅)
    then "- Calls: `" +:+
         Str.join ", " (merge_sort String.le (elements (d_calls d))) +:+ "`"
    else "- Calls: None";
    "" ].

(** [sorted(function_details.items())]: the keys differ pairwise, so the
    order is that of the qualified names. *)
Definition sorted_items (function_details : gmap string details)
    : list (string * details) :=
  merge_sort (λ x y, String.le x.1 y.1) (map_to_list function_details).

Definition write_markdown (root : string)
    (function_details : gmap string details) (all_functions : registry)
    : string :=
  Str.join nl
    ([ "# Project-wide Function Mapping" +:+ nl;
       "## Functions (with cross-file call analysis)" +:+ nl ] ++
     flat_map render_definition (sorted_items function_details)).

(** *** The run, from the list of files that [find_python_files] found *)

Definition analyse (py_files : list string) (root : string)
    : gmap string details :=
  let c := collect_functions_and_imports py_files root in
  build_function_call_graph py_files root (all_functions c)
    (module_imports c) (symbol_imports c).

Definition mapping_md (py_files : list string) (root : string) : string :=
  let c := collect_functions_and_imports py_files root in
  write_markdown root (analyse py_files root) (all_functions c).

End passes.

(** ** Notions used in the statements *)

Section scopes.

Implicit Types (all_functions : registry) (symbol_imports : symbol_tables).
Implicit Types (module_imports : alias_tables).
Implicit Types (symbol_to_func : gmap string (gset string)).
Implicit Types (called : gset string).

(** The sets that step 1 and step 2 of the resolver compute. *)
Definition local_scope name current_module all_functions : gset string :=
  filter (λ q, Str.startswith q (current_module +:+ ".") = true ∧
               last_segment q = name)
         (dom all_functions).

Definition symbol_scope (from_mod : option string) orig_name all_functions
    : gset string :=
  filter (λ k, Str.endswith k ("." +:+ orig_name) = true ∧
               Str.startswith k (Str.or_else from_mod "") = true)
         (dom all_functions).

(** What a resolution adds to [called]. *)
Definition kept all_functions (resolved : option (gset string)) : gset string :=
  filter (λ r, r ∈ dom all_functions) (default ∅ resolved).

(** What one node met by [ast.walk] adds to [called]. *)
Definition contribution module module_imports symbol_imports all_functions
    symbol_to_func (call_node : node) : gset string :=
  match call_node with
  | Call func _ _ =>
      match callee_name func with
      | Some name =>
          if String.eqb name "" then ∅
          else kept all_functions
                 (resolve_function_name name module module_imports
                    symbol_imports all_functions symbol_to_func)
      | None => ∅
      end
  | _ => ∅
  end.

End scopes.

(** ** Dictionaries filled by a sequence of assignments *)

Section assign.

Context {V : Type}.

Implicit Types (l : list (string * V)) (m : gmap string V).

(** [m[k] = v] for every [(k, v)] of [l], in order. *)
Definition assign l m : gmap string V :=
  foldl (λ m kv, <[kv.1 := kv.2]> m) m l.

End assign.

(** ** The collector as a sequence of assignments, and the claims of the
    specification as it states them *)

Section claims.

Variable relpath : string → string → string.
Variable parse_file : string → string + list node.
Variable unparse : node → string.

Local Abbreviation module_name := (module_name relpath).
Local Abbreviation collect :=
  (collect_functions_and_imports relpath parse_file).
Local Abbreviation analysis := (analyse relpath parse_file unparse).

(** The assignments to [all_functions], in the order of execution. *)
Definition method_registration (file_path module class_name : string)
    (item : node) : list (string * (string * def_node * option string)) :=
  match item with
  | Def k d =>
      [ (module +:+ "." +:+ class_name +:+ "." +:+ def_name d,
         (file_path, (k, d), Some class_name)) ]
  | _ => []
  end.

Definition node_registrations (file_path module : string) (n : node)
    : list (string * (string * def_node * option string)) :=
  match n with
  | Def k d => [ (module +:+ "." +:+ def_name d, (file_path, (k, d), None)) ]
  | ClassDef class_name _ _ body _ =>
      flat_map (method_registration file_path module class_name) body
  | _ => []
  end.

Definition file_registrations (root file_path : string)
    : list (string * (string * def_node * option string)) :=
  match parse_file file_path with
  | inl _ => []
  | inr body =>
      flat_map (node_registrations file_path (module_name file_path root)) body
  end.

Definition registrations (py_files : list string) (root : string)
    : list (string * (string * def_node * option string)) :=
  flat_map (file_registrations root) py_files.

(** The import tables that one file leaves under its module name. *)
Definition add_alias (t : gmap string string) (a : ast_alias)
    : gmap string string :=
  <[Str.or_else (alias_asname a) (alias_name a) := alias_name a]> t.

Definition node_aliases (t : gmap string string) (n : node)
    : gmap string string :=
  match n with
  | Import names => foldl add_alias t names
  | _ => t
  end.

Definition file_aliases (file_path : string) : gmap string string :=
  match parse_file file_path with
  | inl _ => ∅
  | inr body => foldl node_aliases ∅ body
  end.

Definition add_symbol (mod_ : option string)
    (t : gmap string (option string * string)) (a : ast_alias)
    : gmap string (option string * string) :=
  <[Str.or_else (alias_asname a) (alias_name a) := (mod_, alias_name a)]> t.

Definition node_symbols (t : gmap string (option string * string)) (n : node)
    : gmap string (option string * string) :=
  match n with
  | ImportFrom mod_ names _ => foldl (add_symbol mod_) t names
  | _ => t
  end.

Definition file_symbols (file_path : string)
    : gmap string (option string * string) :=
  match parse_file file_path with
  | inl _ => ∅
  | inr body => foldl node_symbols ∅ body
  end.

(** The lines that one file sends to the error log. *)
Definition file_errors (file_path : string) : list string :=
  match parse_file file_path with
  | inl e => ["Failed to parse " +:+ file_path +:+ ": " +:+ e]
  | inr _ => []
  end.

(** Where a registration comes from: a function at the top level of a
    file that parses, or a method directly inside a class at the top
    level of such a file. *)
Inductive origin (root file_path : string)
    : string → string * def_node * option string → Prop :=
  | origin_function body k d :
      parse_file file_path = inr body →
      Def k d ∈ body →
      origin root file_path
        (module_name file_path root +:+ "." +:+ def_name d)
        (file_path, (k, d), None)
  | origin_method body class_name bases keywords class_body decorator_list k d :
      parse_file file_path = inr body →
      ClassDef class_name bases keywords class_body decorator_list ∈ body →
      Def k d ∈ class_body →
      origin root file_path
        (module_name file_path root +:+ "." +:+ class_name +:+ "." +:+
         def_name d)
        (file_path, (k, d), Some class_name).

(** The parameters of a definition in the order of its signature:
    positional-only, ordinary, [*args], keyword-only, [**kwargs]. *)
Definition parameters (a : ast_arguments node) : list (ast_arg node) :=
  posonlyargs a ++ args a ++ option_list (vararg a) ++
  kwonlyargs a ++ option_list (kwarg a).

(** The claim of the specification: when [b.util] is registered, [a]
    has no local [util] and imports [util] from [b], a definition of
    [a] that calls [util()] gets the edge [b.util] and no edge to any
    other registered definition named [util]. *)
Definition symbol_import_as_stated (py_files : list string) (root : string)
    (all_functions : registry) (module_imports : alias_tables)
    (symbol_imports : symbol_tables) (a b util : string) : Prop :=
  b +:+ "." +:+ util ∈ dom all_functions →
  local_scope util a all_functions = ∅ →
  default ∅ (symbol_imports !! a) !! util = Some (Some b, util) →
  ∀ qname file_path f class_name call_args keywords d,
    all_functions !! qname = Some (file_path, f, class_name) →
    module_name file_path root = a →
    Call (Name util) call_args keywords ∈ walk (as_node f) →
    build_function_call_graph relpath unparse py_files root all_functions
      module_imports symbol_imports !! qname = Some d →
    b +:+ "." +:+ util ∈ d_calls d ∧
    ∀ q, q ∈ dom all_functions → last_segment q = util →
         q ≠ b +:+ "." +:+ util → q ∉ d_calls d.

(** The claim of the specification on registration. *)
Definition registration_as_stated (py_files : list string) (root : string)
    : Prop :=
  let reg := all_functions (collect py_files root) in
  ∀ file_path body,
    file_path ∈ py_files → parse_file file_path = inr body →
    let module := module_name file_path root in
    (∀ k d, Def k d ∈ body →
       ∃ file_path' f,
         reg !! (module +:+ "." +:+ def_name d) = Some (file_path', f, None)) ∧
    (∀ class_name bases keywords class_body decorator_list k d,
       ClassDef class_name bases keywords class_body decorator_list ∈ body →
       Def k d ∈ class_body →
       ∃ file_path' f,
         reg !! (module +:+ "." +:+ class_name +:+ "." +:+ def_name d)
         = Some (file_path', f, Some class_name)) ∧
    (∀ q e, reg !! q = Some e →
       ∃ file_path', file_path' ∈ py_files ∧ origin root file_path' q e).

(** The claim on parse failures: the failure is logged under the name
    of the file, no entry of the registry stems from the file, and the
    analysis gives what it gives without the file. *)
Definition isolation_as_stated (py_files : list string) (root : string)
    : Prop :=
  ∀ file_path e,
    file_path ∈ py_files → parse_file file_path = inl e →
    let c := collect py_files root in
    let others := filter (λ g, g ≠ file_path) py_files in
    "Failed to parse " +:+ file_path +:+ ": " +:+ e ∈ error_log c ∧
    (∀ q f class_name,
       all_functions c !! q ≠ Some (file_path, f, class_name)) ∧
    analysis py_files root = analysis others root.


(** The claim on collisions: of two definitions assigned to the same
    qualified name, nothing is logged about it and the registry holds
    the one processed later. *)
Definition collision_as_stated (py_files : list string) (root : string)
    : Prop :=
  ∀ before q e1 between e2 after,
    registrations py_files root
    = before ++ (q, e1) :: between ++ (q, e2) :: after →
    let c := collect py_files root in
    (∀ line, line ∈ error_log c →
       ∃ file_path e, file_path ∈ py_files ∧ parse_file file_path = inl e ∧
                      line = "Failed to parse " +:+ file_path +:+ ": " +:+ e) ∧
    all_functions c !! q = Some e2.

(** The claim of the specification: every parameter is recorded with
    its annotation text, the text [any] standing in for a missing
    annotation, also for the return type. *)
Definition capture_as_stated (f : def_node) (d : details) : Prop :=
  d_args d
  = map (λ a, (arg a, from_option unparse "any" (annotation a)))
        (parameters (def_args f.2)) ∧
  d_return d = from_option unparse "any" (def_returns f.2).

End claims.

(** ** A concrete environment, for running the passes on small projects *)

Module Project.

(** [os.path.relpath] on a file below [root], both normalised. *)
Definition relpath (file_path root : string) : string :=
  if Str.startswith file_path (root +:+ "/")
  then String.substring (String.length root + 1)
         (String.length file_path - (String.length root + 1)) file_path
  else file_path.

(** A file system given by the files that parse and the files that do
    not. *)
Definition parse_in (files : list (string * (string + list node)))
    (file_path : string) : string + list node :=
  match list_find (λ f, f.1 = file_path) files with
  | Some (_, (_, r)) => r
  | None => inl "[Errno 2] No such file or directory"
  end.

(** Enough of [ast.unparse] for annotations that are names. *)
Definition unparse (n : node) : string :=
  match n with
  | Name id => id
  | _ => "..."
  end.

Definition params (l : list (ast_arg node)) : ast_arguments node :=
  mk_arguments [] l None [] [] None [].

(** [def name(ps): body] *)
Definition fn (name : string) (ps : list (ast_arg node)) (body : list node)
    : def_node :=
  (FunctionDef, mk_def name (params ps) body [] None).

Definition def_ (name : string) (ps : list (ast_arg node)) (body : list node)
    : node :=
  as_node (fn name ps body).

(** The statement [name()] *)
Definition call_ (name : string) : node := Other [Call (Name name) [] []].

Definition collect files py_files root :=
  collect_functions_and_imports relpath (parse_in files) py_files root.

Definition run files py_files root :=
  analyse relpath (parse_in files) unparse py_files root.

Definition calls_of files py_files root qname : option (list string) :=
  (λ d, merge_sort String.le (elements (d_calls d))) <$> run files py_files root !! qname.

End Project.

(** ** Small projects *)

(** Modules [a] and [b] both define [helper], and [a] even imports
    [helper] from [b]: inside [a], [helper] is [a.helper] alone. *)
Definition two_helpers : list (string * (string + list node)) :=
  [ ("/r/a.py", inr [ ImportFrom (Some "b") [mk_alias "helper" None] 0;
                      Project.def_ "helper" [] [];
                      Project.def_ "main" [] [Project.call_ "helper"] ]);
    ("/r/b.py", inr [ Project.def_ "helper" [] [] ]) ].

(** [main] calls [helper] twice and the builtin [print] once. *)
Definition twice_project : list (string * (string + list node)) :=
  [ ("/r/a.py", inr [ Project.def_ "helper" [] [];
                      Project.def_ "main" []
                        [ Project.call_ "helper"; Project.call_ "helper";
                          Project.call_ "print" ] ]) ].

(** [a] imports [util] from [b]; [b] has a function [util] and a class
    [C] with a method [util]. *)
Definition util_project : list (string * (string + list node)) :=
  [ ("/r/a.py", inr [ ImportFrom (Some "b") [mk_alias "util" None] 0;
                      Project.def_ "func" [] [Project.call_ "util"] ]);
    ("/r/b.py", inr [ Project.def_ "util" [] [];
                      ClassDef "C" [] []
                        [Project.def_ "util" [mk_arg "self" None] []] [] ]) ].

(** Calls at depth.  [outer] has the default value [e()] for its
    parameter and the body
    [def inner(): a()], [self.b()], [c()()], [x().d()], [d[i]()]:
    the calls of [e], [a], [b] and [c] yield names, the call of the result
    of [c()], of the attribute [d] of a call result and of the subscript
    [d[i]] yield none. *)
Definition outer_def : def_node :=
  (FunctionDef,
   mk_def "outer"
     (mk_arguments [] [mk_arg "p" None] None [] [] None [Call (Name "e") [] []])
     [ Project.def_ "inner" [] [Project.call_ "a"];
       Other [Call (Attribute (Name "self") "b") [] []];
       Other [Call (Call (Name "c") [] []) [] []];
       Other [Call (Attribute (Call (Name "x") [] []) "d") [] []];
       Other [Call (Other [Name "d"; Name "i"]) [] []] ]
     [] None).

Definition nested_project : list (string * (string + list node)) :=
  [ ("/r/m.py",
     inr [ Project.def_ "a" [] []; Project.def_ "b" [] [];
           Project.def_ "c" [] []; Project.def_ "d" [] [];
           Project.def_ "e" [] []; as_node outer_def ]) ].

(** Module [a] has a class [b] with a method [f]; module [a.b] has a
    function [f]. *)
Definition clash_project : list (string * (string + list node)) :=
  [ ("/r/a.py", inr [ ClassDef "b" [] []
                        [Project.def_ "f" [mk_arg "self" None] []] [] ]);
    ("/r/a/b.py", inr [ Project.def_ "f" [] [] ]) ].

(** A function, a class with a method and with a nested class, and a
    function with a nested function. *)
Definition shapes_body : list node :=
  [ Project.def_ "f" [] [];
    ClassDef "C" [] []
      [ Project.def_ "m" [mk_arg "self" None] [];
        ClassDef "D" [] [] [Project.def_ "deep" [mk_arg "self" None] []] [] ] [];
    Project.def_ "outer" [] [Project.def_ "inner" [] []] ].

Definition shapes_project : list (string * (string + list node)) :=
  [ ("/r/m.py", inr shapes_body) ].

(** Module [a] defines [f] twice. *)
Definition redefined_project : list (string * (string + list node)) :=
  [ ("/r/a.py", inr [ Project.def_ "f" [] [];
                      Project.def_ "f" [mk_arg "x" None] [] ]) ].

(** Module [a] defines [f] three times. *)
Definition thrice_defined_project : list (string * (string + list node)) :=
  [ ("/r/a.py", inr [ Project.def_ "f" [] [];
                      Project.def_ "f" [mk_arg "x" None] [];
                      Project.def_ "f" [mk_arg "x" None; mk_arg "y" None] [] ]) ].

(** [pkg.py] does not parse; the initializer of the package [pkg], which
    is processed after it, imports [util] from [lib] and calls it;
    [other] has a [util] of its own. *)
Definition package_first_project : list (string * (string + list node)) :=
  [ ("/r/lib.py", inr [ Project.def_ "util" [] [] ]);
    ("/r/other.py", inr [ Project.def_ "util" [] [] ]);
    ("/r/pkg.py", inl "invalid syntax (pkg.py, line 1)");
    ("/r/pkg/__init__.py",
     inr [ ImportFrom (Some "lib") [mk_alias "util" None] 0;
           Project.def_ "f" [] [Project.call_ "util"] ]) ].


(** [pkg.py] imports [util] from [lib] and calls it; the initializer of
    the package [pkg], found later in the walk, does not parse; [other]
    has a [util] of its own. *)
Definition shadow_project : list (string * (string + list node)) :=
  [ ("/r/lib.py", inr [ Project.def_ "util" [] [] ]);
    ("/r/other.py", inr [ Project.def_ "util" [] [] ]);
    ("/r/pkg.py", inr [ ImportFrom (Some "lib") [mk_alias "util" None] 0;
                        Project.def_ "f" [] [Project.call_ "util"] ]);
    ("/r/pkg/__init__.py", inl "invalid syntax (__init__.py, line 1)") ].

(** [def f(x, *, flag): ...], without annotations. *)
Definition keyword_only_def : def_node :=
  (FunctionDef,
   mk_def "f"
     (mk_arguments [] [mk_arg "x" None] None [mk_arg "flag" None] [None] None [])
     [] [] None).

(** [def scale(v: Vector, k) -> Vector: ...] *)
Definition annotated_def : def_node :=
  (FunctionDef,
   mk_def "scale"
     (Project.params [mk_arg "v" (Some (Name "Vector")); mk_arg "k" None])
     [] [] (Some (Name "Vector"))).

(** ** File discovery, the ignore list and the entry point *)

(** A directory as [os.walk] lists it: its subdirectories with what is
    below them, and the names of its other entries.  A directory that
    [os.walk] does not enter (a symbolic link, an unreadable directory)
    is one without entries. *)
#[local] Unset Elimination Schemes.
Inductive dir_tree : Type :=
  | Dir (dirnames : list (string * dir_tree)) (filenames : list string).
#[local] Set Elimination Schemes.

(** [os.path.join(a, b)] of [posixpath]. *)
Definition path_join (a b : string) : string :=
  if Str.startswith b "/" then b
  else if String.eqb a "" || Str.endswith a "/" then a +:+ b
  else a +:+ "/" +:+ b.

(** The loop over [os.walk(root)]: the files of [dirpath] whose name ends
    in [.py], then the same below every subdirectory that
    [dirnames[:] = [d for d in dirnames if d not in ignore_dirs]] keeps. *)
Fixpoint walk_files (ignore_dirs : gset string) (dirpath : string)
    (t : dir_tree) : list string :=
  match t with
  | Dir dirnames filenames =>
      map (path_join dirpath)
          (filter (λ f, Str.endswith f ".py" = true) filenames) ++
      flat_map (λ d, if bool_decide (d.1 ∈ ignore_dirs) then []
                     else walk_files ignore_dirs (path_join dirpath d.1) d.2)
               dirnames
  end.

Definition find_python_files (root : string) (ignore_dirs : gset string)
    (t : dir_tree) : list string :=
  walk_files ignore_dirs root t.

(** What [main] leaves behind: the lines sent to [logging], the file it
    writes (path and content) and the lines it prints. *)
Record main_result := mk_main_result {
  logged : list string;
  written : string * string;
  printed : list string
}.

Section entry.

(** The environment of the passes, and [str.strip()]. *)
Variable relpath : string → string → string.
Variable parse_file : string → string + list node.
Variable unparse : node → string.
Variable strip : string → string.

(** The body of [for line in f]. *)
Definition ignore_line (ignore : gset string) (line : string) : gset string :=
  let line := strip line in
  if String.eqb line "" || Str.startswith line "#" then ignore
  else
    let name := Str.lstrip ["*"; "/"]%char (Str.rstrip ["/"]%char line) in
    if String.eqb name "" then ignore else ignore ∪ {[ name ]}.

(** [gitignore] is [None] when [.gitignore] does not exist, else its
    lines. *)
Definition load_ignore_dirs (gitignore : option (list string)) : gset string :=
  let ignore : gset string := {[ ".git"; "__pycache__" ]} in
  match gitignore with
  | Some lines => foldl ignore_line ignore lines
  | None => ignore
  end.

(** [main], for the absolute path [root] of the project. *)
Definition main (root : string) (gitignore : option (list string))
    (t : dir_tree) : main_result :=
  let ignore_dirs := load_ignore_dirs gitignore in
  let py_files := find_python_files root ignore_dirs t in
  let c := collect_functions_and_imports relpath parse_file py_files root in
  let function_details :=
    build_function_call_graph relpath unparse py_files root (all_functions c)
      (module_imports c) (symbol_imports c) in
  let md := write_markdown root function_details (all_functions c) in
  mk_main_result
    (("Found " +:+ pretty (length py_files) +:+ " Python files") :: error_log c)
    (path_join root "mapping.md", md)
    ["Wrote mapping.md"].

End entry.

(** ** Notions used in the further statements *)

(** The file [f] lies in the tree below the directories [segs]. *)
Inductive file_at : dir_tree → list string → string → Prop :=
  | file_here dirnames filenames f :
      f ∈ filenames → file_at (Dir dirnames filenames) [] f
  | file_below dirnames filenames name sub segs f :
      (name, sub) ∈ dirnames → file_at sub segs f →
      file_at (Dir dirnames filenames) (name :: segs) f.

(** The path of an entry below [root]. *)
Definition path_below (root : string) (segs : list string) : string :=
  foldl path_join root segs.

(** Number of directories of a tree. *)
Fixpoint tree_size (t : dir_tree) : nat :=
  match t with
  | Dir dirnames _ => S (list_sum (map (λ d, tree_size d.2) dirnames))
  end.

(** The directories of the tree have names without [/]. *)
Fixpoint plain_names (t : dir_tree) : bool :=
  match t with
  | Dir dirnames _ =>
      forallb (λ d, Str.free_of os_sep d.1 && plain_names d.2) dirnames
  end.

(** The assignments that the top-level imports of a module body make to
    the two tables of the module, in order. *)
Definition alias_assignment (a : ast_alias) : string * string :=
  (Str.or_else (alias_asname a) (alias_name a), alias_name a).

Definition import_assignments (body : list node) : list (string * string) :=
  flat_map (λ n, match n with
                 | Import names => map alias_assignment names
                 | _ => []
                 end) body.

Definition symbol_assignment (mod_ : option string) (a : ast_alias)
    : string * (option string * string) :=
  (Str.or_else (alias_asname a) (alias_name a), (mod_, alias_name a)).

Definition symbol_assignments (body : list node)
    : list (string * (option string * string)) :=
  flat_map (λ n, match n with
                 | ImportFrom mod_ names _ => map (symbol_assignment mod_) names
                 | _ => []
                 end) body.

(** [str.strip()] on ASCII text, for running [main]. *)
Definition ascii_space : list ascii :=
  map ascii_of_nat [9; 10; 11; 12; 13; 28; 29; 30; 31; 32].

Definition ascii_strip (s : string) : string :=
  Str.rstrip ascii_space (Str.lstrip ascii_space s).

(** ** Further small projects *)

(** [a] imports [dump] from the library [json] and calls it; [b] has a
    [dump] of its own. *)
Definition external_project : list (string * (string + list node)) :=
  [ ("/r/a.py", inr [ ImportFrom (Some "json") [mk_alias "dump" None] 0;
                      Project.def_ "save" [] [Project.call_ "dump"] ]);
    ("/r/b.py", inr [ Project.def_ "dump" [] [] ]) ].

(** [pkg/a.py] has [from . import run] and calls [run]; [pkg/b.py] and
    [other.py] both define [run]. *)
Definition relative_project : list (string * (string + list node)) :=
  [ ("/r/pkg/a.py", inr [ ImportFrom None [mk_alias "run" None] 1;
                          Project.def_ "f" [] [Project.call_ "run"] ]);
    ("/r/pkg/b.py", inr [ Project.def_ "run" [] [] ]);
    ("/r/other.py", inr [ Project.def_ "run" [] [] ]) ].

(** [fact] calls itself; the method [go] of [C] calls [self.go()]. *)
Definition fact_def : def_node :=
  Project.fn "fact" [mk_arg "n" None] [Project.call_ "fact"].

Definition recursive_project : list (string * (string + list node)) :=
  [ ("/r/m.py",
     inr [ as_node fact_def;
           ClassDef "C" [] []
             [ Project.def_ "go" [mk_arg "self" None]
                 [Other [Call (Attribute (Name "self") "go") [] []]] ] [] ]) ].

(** [import numpy as np], then [import os, array as np], two imports of
    a name [f], and an import inside a function. *)
Definition imports_body : list node :=
  [ Import [mk_alias "numpy" (Some "np")];
    Import [mk_alias "os" None; mk_alias "array" (Some "np")];
    ImportFrom (Some "a") [mk_alias "f" None] 0;
    Project.def_ "g" [] [Import [mk_alias "sys" None]];
    ImportFrom (Some "b") [mk_alias "f" None] 0 ].

Definition imports_project : list (string * (string + list node)) :=
  [ ("/r/m.py", inr imports_body) ].

(** A project directory: a repository directory with a Python file in
    it, a package with a build directory, and files of other kinds. *)
Definition sample_tree : dir_tree :=
  Dir [ (".git", Dir [] ["hook.py"]);
        ("pkg", Dir [ ("build", Dir [] ["gen.py"]) ]
                    ["__init__.py"; "core.py"; "notes.txt"]) ]
      ["setup.py"; "README.md"; ".gitignore"].

Definition sample_gitignore : list string :=
  [ "# build output" +:+ nl; nl; "build/" +:+ nl; "*.pyc" +:+ nl;
    "docs/_build" +:+ nl; "*/" +:+ nl; "/dist" ].

Definition sample_files : list (string * (string + list node)) :=
  [ ("/r/setup.py", inr [ Project.def_ "setup" [] [Project.call_ "run"] ]);
    ("/r/pkg/__init__.py", inr []);
    ("/r/pkg/core.py", inr [ Project.def_ "run" [] [] ]);
    ("/r/pkg/build/gen.py", inr [ Project.def_ "run" [] [] ]);
    ("/r/.git/hook.py", inr [ Project.def_ "run" [] [] ]) ].

Definition sample_main : main_result :=
  main Project.relpath (Project.parse_in sample_files) Project.unparse
    ascii_strip "/r" (Some sample_gitignore) sample_tree.

(** * Part II: lemmas and theorems *)

(** ** Strings *)

Module StrFacts.
Import Str.

Lemma startswith_spec s p : startswith s p = true ↔ ∃ r, s = p +:+ r.
Proof.
  revert s. induction p as [|a p IH]; intros s; simpl.
  - split; [by exists s | done].
  - destruct s as [|b s]; simpl.
    + split; [done | intros [r Hr]; discriminate].
    + destruct (Ascii.eqb_spec a b) as [->|Hne]; simpl.
      * rewrite IH. split; intros [r Hr]; exists r; [by rewrite Hr | by injection Hr].
      * split; [done | intros [r Hr]; injection Hr; congruence].
Qed.

Lemma startswith_app p r : startswith (p +:+ r) p = true.
Proof. apply startswith_spec; eauto. Qed.

Lemma endswith_spec s p : endswith s p = true ↔ ∃ r, s = r +:+ p.
Proof.
  induction s as [|a s IH]; cbn [endswith].
  - destruct (String.eqb_spec "" p) as [<-|Hne].
    + split; [by exists "" | done].
    + split; [done | intros [[|??] Hr]; simpl in Hr; [done | discriminate]].
  - destruct (String.eqb_spec (String a s) p) as [<-|Hne].
    + split; [by exists "" | done].
    + rewrite IH. split.
      * intros [r ->]. by exists (String a r).
      * intros [[|b r] Hr]; simpl in Hr; [done|].
        injection Hr as _ ->. by exists r.
Qed.

Lemma endswith_app r p : endswith (r +:+ p) p = true.
Proof. apply endswith_spec; eauto. Qed.

Lemma app_nil_l t : "" +:+ t = t.
Proof. reflexivity. Qed.

Lemma app_cons a s t : String a s +:+ t = String a (s +:+ t).
Proof. reflexivity. Qed.

Lemma length_app s t :
  String.length (s +:+ t) = String.length s + String.length t.
Proof.
  induction s as [|a s IH]; [done|]. rewrite app_cons. simpl. by rewrite IH.
Qed.

Lemma substring_app s t : String.substring 0 (String.length s) (s +:+ t) = s.
Proof.
  induction s as [|a s IH].
  - rewrite app_nil_l. by destruct t.
  - rewrite app_cons. simpl. by rewrite IH.
Qed.

Lemma drop_end_app s t : drop_end (String.length t) (s +:+ t) = s.
Proof.
  unfold drop_end. rewrite length_app.
  replace (String.length s + String.length t - String.length t)
    with (String.length s) by lia.
  apply substring_app.
Qed.

Lemma split_nonempty sep s : split sep s ≠ [].
Proof.
  destruct s as [|a s]; simpl; [done|].
  destruct (Ascii.eqb a sep); [done|]. by destruct (split sep s).
Qed.

Lemma split_free sep s : free_of sep s = true → split sep s = [s].
Proof.
  induction s as [|a s IH]; simpl; [done|].
  destruct (Ascii.eqb a sep); simpl; [done|].
  intros H. by rewrite IH.
Qed.

Lemma split_cons sep x s :
  free_of sep x = true →
  split sep (x +:+ String sep s) = x :: split sep s.
Proof.
  induction x as [|a x IH]; simpl.
  - by rewrite Ascii.eqb_refl.
  - destruct (Ascii.eqb a sep); simpl; [done|].
    intros H. by rewrite IH.
Qed.

(** Splitting what [join] produced gives the segments back, as long as
    no segment contains the separator. *)
Lemma split_join sep l :
  l ≠ [] → Forall (λ x, free_of sep x = true) l →
  split sep (join (String sep "") l) = l.
Proof.
  intros Hne Hall. induction Hall as [|x l Hx Hl IH]; [done|].
  destruct l as [|y l]; simpl.
  - by apply split_free.
  - change (split sep (x +:+ String sep (join (String sep "") (y :: l))) = x :: y :: l).
    rewrite split_cons by done. f_equal. by apply IH.
Qed.

End StrFacts.

(** ** Walking a tree *)

Section walk_facts.

Lemma flat_map_flat_map {A B C} (f : B → list C) (g : A → list B) l :
  flat_map f (flat_map g l) = flat_map (λ x, flat_map f (g x)) l.
Proof.
  induction l as [|x l IH]; simpl; [done|].
  by rewrite flat_map_app, IH.
Qed.

Lemma flat_map_singleton {A B} (g : A → B) l :
  flat_map (λ c, [g c]) l = map g l.
Proof. induction l; simpl; congruence. Qed.

Lemma arg_bind_children {A B} (f : A → list B) a :
  flat_map f (arg_bind (λ c, [c]) a) = arg_bind f a.
Proof.
  unfold arg_bind. destruct (annotation a); simpl; [apply app_nil_r | done].
Qed.

Lemma arguments_bind_children {A B} (f : A → list B) a :
  flat_map f (arguments_bind (λ c, [c]) a) = arguments_bind f a.
Proof.
  unfold arguments_bind. rewrite !flat_map_app, !flat_map_flat_map.
  repeat apply (f_equal2 (@app B)).
  - apply flat_map_ext. intros x. apply arg_bind_children.
  - apply flat_map_ext. intros x. apply arg_bind_children.
  - destruct (vararg a); [apply arg_bind_children | done].
  - apply flat_map_ext. intros x. apply arg_bind_children.
  - apply flat_map_ext. intros [x|]; simpl; [apply app_nil_r | done].
  - destruct (kwarg a); [apply arg_bind_children | done].
  - apply flat_map_ext. intros x. simpl. apply app_nil_r.
Qed.

Lemma def_bind_children {A B} (f : A → list B) d :
  flat_map f (def_bind (λ c, [c]) d) = def_bind f d.
Proof.
  unfold def_bind. rewrite !flat_map_app, arguments_bind_children.
  rewrite !flat_map_flat_map.
  apply (f_equal2 (@app B)); [done|].
  apply (f_equal2 (@app B)); [|apply (f_equal2 (@app B))].
  - apply flat_map_ext. intros x. simpl. apply app_nil_r.
  - apply flat_map_ext. intros x. simpl. apply app_nil_r.
  - destruct (def_returns d); simpl; [apply app_nil_r | done].
Qed.

Lemma walk_unfold n : walk n = n :: flat_map walk (iter_child_nodes n).
Proof.
  destruct n; simpl; f_equal; rewrite ?flat_map_app, ?app_nil_r; try done.
  by rewrite def_bind_children.
Qed.

Lemma node_size_unfold n :
  node_size n = S (list_sum (map node_size (iter_child_nodes n))).
Proof.
  destruct n; simpl; f_equal;
    rewrite ?map_app, ?list_sum_app; try lia.
  by rewrite <- flat_map_singleton, def_bind_children.
Qed.

Lemma child_smaller n c : c ∈ iter_child_nodes n → node_size c < node_size n.
Proof.
  rewrite (node_size_unfold n). generalize (iter_child_nodes n).
  intros l Hc. induction Hc as [c l|c x l _ IH]; simpl; lia.
Qed.

Lemma elem_of_flat_map {A B} (f : A → list B) l y :
  y ∈ flat_map f l ↔ ∃ x, x ∈ l ∧ y ∈ f x.
Proof.
  rewrite !list_elem_of_In, in_flat_map.
  split; intros (x & Hx & Hy); exists x; by rewrite ?list_elem_of_In in *.
Qed.

Lemma walk_self n : n ∈ walk n.
Proof. rewrite walk_unfold. left. Qed.

Lemma within_walk n m : within n m → m ∈ walk n.
Proof.
  induction 1 as [|n c m Hc _ IH]; [apply walk_self|].
  rewrite walk_unfold. right. apply elem_of_flat_map. eauto.
Qed.

Lemma walk_within n m : m ∈ walk n → within n m.
Proof.
  remember (node_size n) as k eqn:Hk. revert n Hk m.
  induction k as [k IH] using lt_wf_ind. intros n -> m.
  rewrite walk_unfold, elem_of_cons, elem_of_flat_map.
  intros [->|(c & Hc & Hm)]; [constructor|].
  apply within_child with c; [done|].
  eapply IH; [|done..]. by apply child_smaller.
Qed.

(** [ast.walk] reaches exactly the nodes of the tree. *)
Lemma elem_of_walk n m : m ∈ walk n ↔ within n m.
Proof. split; [apply walk_within | apply within_walk]. Qed.

End walk_facts.

(** ** The module namer *)

Section module_namer.

Variable relpath : string → string → string.

Lemma last_is_Some {A} (l : list A) : l ≠ [] → is_Some (last l).
Proof.
  intros Hl. destruct (last l) eqn:E; [eauto|].
  by apply last_None in E.
Qed.

Lemma insert_last {A} (l : list A) x y :
  <[length (l ++ [x]) - 1 := y]> (l ++ [x]) = l ++ [y].
Proof.
  rewrite length_app. simpl.
  replace (length l + 1 - 1) with (length l + 0) by lia.
  by rewrite insert_app_r.
Qed.

Lemma take_last {A} (l : list A) x :
  take (length (l ++ [x]) - 1) (l ++ [x]) = l.
Proof.
  rewrite length_app. simpl.
  replace (length l + 1 - 1) with (length l) by lia.
  by rewrite take_app_length.
Qed.

(** [parts[-1]] never raises: the passes may use [module_name]. *)
Lemma get_module_name_total file_path root :
  get_module_name relpath file_path root
  = Some (module_name relpath file_path root).
Proof.
  unfold module_name.
  enough (is_Some (get_module_name relpath file_path root)) as [m ->]; [done|].
  unfold get_module_name.
  destruct (last_is_Some (Str.split os_sep (relpath file_path root)))
    as [x Hx]; [apply StrFacts.split_nonempty|].
  rewrite Hx. simpl.
  match goal with |- is_Some (last ?l ≫= _) =>
    destruct (last_is_Some l) as [y Hy] end.
  { destruct (Str.endswith x ".py"); [|apply StrFacts.split_nonempty].
    intros Hnil%(f_equal length). rewrite length_insert in Hnil.
    by apply length_zero_iff_nil, StrFacts.split_nonempty in Hnil. }
  rewrite Hy. simpl. eauto.
Qed.

Lemma get_module_name_parts file_path root dirs base :
  Str.split os_sep (relpath file_path root) = dirs ++ [base] →
  let stem := if Str.endswith base ".py" then Str.drop_end 3 base else base in
  get_module_name relpath file_path root
  = Some (Str.join "."
            (dirs ++ if String.eqb stem "__init__" then [] else [stem])).
Proof.
  intros Hparts. cbv zeta. unfold get_module_name.
  rewrite Hparts, last_snoc. simpl.
  destruct (Str.endswith base ".py").
  - rewrite insert_last, last_snoc. simpl.
    destruct (String.eqb (Str.drop_end 3 base) "__init__"); [|done].
    by rewrite take_last, app_nil_r.
  - rewrite last_snoc. simpl.
    destruct (String.eqb base "__init__"); [|done].
    by rewrite take_last, app_nil_r.
Qed.

End module_namer.

(** C9. For a file below the root whose root-relative path consists of the
    directory segments [dirs] and the file name [base], the module name is
    computed without failure: it joins with dots the directory segments
    and the file name without its [.py] suffix, except that a file name
    whose stem is [__init__] is left out altogether; the initializer file
    of the root itself gets the empty name. *)
Theorem module_naming relpath file_path root dirs base stem :
  Forall (λ seg, Str.free_of os_sep seg = true) (dirs ++ [base]) →
  relpath file_path root = Str.join "/" (dirs ++ [base]) →
  (base = stem +:+ ".py" ∨ Str.endswith base ".py" = false ∧ base = stem) →
  get_module_name relpath file_path root
  = Some (Str.join "." (if String.eqb stem "__init__" then dirs
                        else dirs ++ [stem]))
  ∧ (dirs = [] → stem = "__init__" →
     get_module_name relpath file_path root = Some "").
Proof.
  intros Hfree Hrel Hstem.
  assert (get_module_name relpath file_path root
          = Some (Str.join "." (if String.eqb stem "__init__" then dirs
                                else dirs ++ [stem]))) as Hname.
  { rewrite (get_module_name_parts relpath file_path root dirs base).
    - destruct Hstem as [->|[-> ->]].
      + rewrite StrFacts.endswith_app.
        change 3 with (String.length ".py"). rewrite StrFacts.drop_end_app.
        destruct (String.eqb stem "__init__"); by rewrite ?app_nil_r.
      + destruct (String.eqb stem "__init__"); by rewrite ?app_nil_r.
    - rewrite Hrel. apply StrFacts.split_join; [|done]. by destruct dirs. }
  split; [done|]. intros -> ->. by rewrite Hname.
Qed.

Lemma module_naming_witness :
  get_module_name Project.relpath "/r/pkg/sub/mod.py" "/r" = Some "pkg.sub.mod"
  ∧ get_module_name Project.relpath "/r/pkg/__init__.py" "/r" = Some "pkg"
  ∧ get_module_name Project.relpath "/r/__init__.py" "/r" = Some "".
Proof.
  split; [|split].
  - apply (module_naming Project.relpath "/r/pkg/sub/mod.py" "/r"
             ["pkg"; "sub"] "mod.py" "mod");
      [by repeat constructor | reflexivity | by left].
  - apply (module_naming Project.relpath "/r/pkg/__init__.py" "/r"
             ["pkg"] "__init__.py" "__init__");
      [by repeat constructor | reflexivity | by left].
  - apply (module_naming Project.relpath "/r/__init__.py" "/r"
             [] "__init__.py" "__init__");
      [by repeat constructor | reflexivity | by left | done | done].
Defined.

(** ** The name resolver *)

Section resolver.

Implicit Types (all_functions : registry) (symbol_imports : symbol_tables).
Implicit Types (module_imports : alias_tables).
Implicit Types (symbol_to_func : gmap string (gset string)).

Lemma local_match_spec name current_module candidate :
  local_match name current_module candidate = true ↔
  Str.startswith candidate (current_module +:+ ".") = true ∧
  last_segment candidate = name.
Proof.
  unfold local_match. rewrite andb_true_iff.
  by destruct (String.eqb_spec (last_segment candidate) name); intuition.
Qed.

Lemma import_match_spec from_mod orig_name k :
  import_match from_mod orig_name k = true ↔
  Str.endswith k ("." +:+ orig_name) = true ∧
  Str.startswith k (Str.or_else from_mod "") = true.
Proof. unfold import_match. by rewrite andb_true_iff. Qed.

Lemma local_filter name current_module all_functions :
  filter (λ candidate, local_match name current_module candidate = true)
         (dom all_functions)
  = local_scope name current_module all_functions.
Proof.
  apply set_eq. intros q. unfold local_scope.
  by rewrite !elem_of_filter, local_match_spec.
Qed.

Lemma import_filter from_mod orig_name all_functions :
  filter (λ k, import_match from_mod orig_name k = true) (dom all_functions)
  = symbol_scope from_mod orig_name all_functions.
Proof.
  apply set_eq. intros q. unfold symbol_scope.
  by rewrite !elem_of_filter, import_match_spec.
Qed.

(** The resolver, step by step. *)
Lemma resolve_unfold name current_module module_imports symbol_imports
    all_functions symbol_to_func :
  resolve_function_name name current_module module_imports symbol_imports
    all_functions symbol_to_func
  = if bool_decide (local_scope name current_module all_functions ≠ ∅)
    then Some (local_scope name current_module all_functions)
    else match default ∅ (symbol_imports !! current_module) !! name with
         | Some (from_mod, orig_name) =>
             if bool_decide (symbol_scope from_mod orig_name all_functions ≠ ∅)
             then Some (symbol_scope from_mod orig_name all_functions)
             else symbol_to_func !! name
         | None => symbol_to_func !! name
         end.
Proof.
  unfold resolve_function_name. rewrite local_filter.
  case_bool_decide; [done|].
  destruct (default ∅ (symbol_imports !! current_module) !! name)
    as [[from_mod orig_name]|]; [|done].
  by rewrite import_filter.
Qed.

(** The reverse index maps a final segment to the registered names that
    end in it. *)
Lemma elem_of_reverse_index all_functions short q :
  q ∈ default ∅ (reverse_index all_functions !! short) ↔
  q ∈ dom all_functions ∧ last_segment q = short.
Proof.
  unfold reverse_index. revert short q.
  apply (map_fold_weak_ind
           (λ (r : gmap string (gset string)) (m : registry),
              ∀ short q, q ∈ default ∅ (r !! short) ↔
                         q ∈ dom m ∧ last_segment q = short)).
  - intros short q. rewrite lookup_empty, dom_empty_L. simpl.
    split; [by intros ?%not_elem_of_empty | by intros [?%not_elem_of_empty _]].
  - intros i x m r Hi IH short q. rewrite dom_insert_L, elem_of_union.
    rewrite elem_of_singleton.
    destruct (decide (last_segment i = short)) as [<-|Hne].
    + rewrite lookup_insert_eq. simpl. rewrite elem_of_union, IH.
      rewrite elem_of_singleton. split.
      * intros [[Hq Hseg]|Hq]; [by auto|]. subst q. auto.
      * intros [[Hq|Hq] Hseg]; [by right|by left].
    + rewrite lookup_insert_ne by done. rewrite IH. split.
      * intros [Hq Hseg]; auto.
      * intros [[Hq|Hq] Hseg]; [by subst q|done].
Qed.

(** Without a local match and without a symbol import of the name, the
    resolver falls back on the reverse index. *)
Lemma resolve_global name current_module module_imports symbol_imports
    all_functions :
  local_scope name current_module all_functions = ∅ →
  default ∅ (symbol_imports !! current_module) !! name = None →
  ∀ q, q ∈ default ∅ (resolve_function_name name current_module
                        module_imports symbol_imports all_functions
                        (reverse_index all_functions))
       ↔ q ∈ dom all_functions ∧ last_segment q = name.
Proof.
  intros Hlocal Himport q. rewrite resolve_unfold, Hlocal, Himport.
  rewrite bool_decide_false by (by intros []).
  apply elem_of_reverse_index.
Qed.

End resolver.

(** C1. Whenever some registered qualified name starts with the calling
    module followed by a dot and ends in the bare name, the resolver
    returns exactly the set of such names, whatever the import tables and
    the reverse index hold. *)
Theorem resolver_precedence name current_module module_imports symbol_imports
    (all_functions : registry) symbol_to_func :
  (∃ q, q ∈ dom all_functions ∧
        Str.startswith q (current_module +:+ ".") = true ∧
        last_segment q = name) →
  resolve_function_name name current_module module_imports symbol_imports
    all_functions symbol_to_func
  = Some (filter (λ q, Str.startswith q (current_module +:+ ".") = true ∧
                       last_segment q = name)
                 (dom all_functions)).
Proof.
  intros (q & Hq & Hpre & Hlast). rewrite resolve_unfold.
  rewrite bool_decide_true; [done|].
  intros Hempty. apply (not_elem_of_empty (C:=gset string) q).
  rewrite <- Hempty. apply elem_of_filter. eauto.
Qed.

Lemma resolver_precedence_witness :
  let c := Project.collect two_helpers ["/r/a.py"; "/r/b.py"] "/r" in
  dom (all_functions c) = {[ "a.helper"; "a.main"; "b.helper" ]} ∧
  reverse_index (all_functions c) !! "helper" = Some {[ "a.helper"; "b.helper" ]} ∧
  resolve_function_name "helper" "a" (module_imports c) (symbol_imports c)
    (all_functions c) (reverse_index (all_functions c))
  = Some {[ "a.helper" ]}.
Proof.
  intros c. split; [by vm_compute|]. split; [by vm_compute|].
  rewrite (resolver_precedence "helper" "a" (module_imports c)
             (symbol_imports c) (all_functions c)
             (reverse_index (all_functions c))).
  - by vm_compute.
  - exists "a.helper". by vm_compute.
Defined.

(** ** The call graph builder *)

Section call_edges.

Implicit Types (all_functions : registry) (symbol_imports : symbol_tables).
Implicit Types (module_imports : alias_tables).
Implicit Types (symbol_to_func : gmap string (gset string)).
Implicit Types (called : gset string).

Lemma keep_resolved_union all_functions resolved called :
  keep_resolved all_functions resolved called
  = called ∪ kept all_functions resolved.
Proof.
  unfold keep_resolved, kept. destruct resolved as [resolved|]; simpl.
  - destruct (bool_decide (resolved ≠ ∅) &&
              bool_decide (set_Exists (λ r, r ∈ dom all_functions) resolved))
      eqn:E; [done|].
    apply andb_false_iff in E. apply set_eq. intros x.
    rewrite elem_of_union, elem_of_filter.
    split; [by left|]. intros [?|[Hx Hr]]; [done|]. exfalso.
    destruct E as [E|E]; apply bool_decide_eq_false in E; apply E.
    + set_solver.
    + by exists x.
  - set_solver.
Qed.

Lemma kept_subseteq all_functions resolved :
  kept all_functions resolved ⊆ dom all_functions.
Proof. unfold kept. intros x. rewrite elem_of_filter. tauto. Qed.

Lemma visit_call_union module module_imports symbol_imports all_functions
    symbol_to_func called call_node :
  visit_call module module_imports symbol_imports all_functions
    symbol_to_func called call_node
  = called ∪ contribution module module_imports symbol_imports all_functions
               symbol_to_func call_node.
Proof.
  unfold visit_call, contribution.
  destruct call_node as [| |func ? ?| | | | |]; try set_solver.
  destruct (callee_name func) as [name|]; [|set_solver].
  destruct (String.eqb name ""); [set_solver|].
  apply keep_resolved_union.
Qed.

Lemma foldl_visit_call module module_imports symbol_imports all_functions
    symbol_to_func nodes called x :
  x ∈ foldl (visit_call module module_imports symbol_imports all_functions
               symbol_to_func) called nodes
  ↔ x ∈ called ∨
    ∃ call_node, call_node ∈ nodes ∧
      x ∈ contribution module module_imports symbol_imports all_functions
            symbol_to_func call_node.
Proof.
  revert called. induction nodes as [|n nodes IH]; intros called; simpl.
  - split; [by left|]. intros [?|(c & Hc & _)]; [done|]. by inversion Hc.
  - rewrite IH, visit_call_union, elem_of_union. split.
    + intros [[?|?]|(c & Hc & Hx)]; [by left|right..].
      * exists n. split; [left|done].
      * exists c. split; [by right|done].
    + intros [?|(c & Hc & Hx)]; [by left; left|].
      apply elem_of_cons in Hc as [->|Hc]; [by left; right|].
      right. by exists c.
Qed.

Lemma contribution_subseteq module module_imports symbol_imports
    all_functions symbol_to_func call_node :
  contribution module module_imports symbol_imports all_functions
    symbol_to_func call_node ⊆ dom all_functions.
Proof.
  unfold contribution. destruct call_node as [| |func ? ?| | | | |];
    try set_solver.
  destruct (callee_name func) as [name|]; [|set_solver].
  destruct (String.eqb name ""); [set_solver|]. apply kept_subseteq.
Qed.

End call_edges.

Section call_graph.

Variable relpath : string → string → string.
Variable unparse : node → string.

Implicit Types (all_functions : registry) (symbol_imports : symbol_tables).
Implicit Types (module_imports : alias_tables).
Implicit Types (symbol_to_func : gmap string (gset string)).

(** The entries of [function_details], one per registry entry. *)
Lemma lookup_build py_files root all_functions module_imports symbol_imports
    qname :
  build_function_call_graph relpath unparse py_files root all_functions
    module_imports symbol_imports !! qname
  = function_detail relpath unparse root module_imports symbol_imports
      all_functions (reverse_index all_functions) <$> all_functions !! qname.
Proof. unfold build_function_call_graph. apply lookup_fmap. Qed.

Lemma lookup_build_Some py_files root all_functions module_imports
    symbol_imports qname d :
  build_function_call_graph relpath unparse py_files root all_functions
    module_imports symbol_imports !! qname = Some d ↔
  ∃ e, all_functions !! qname = Some e ∧
       d = function_detail relpath unparse root module_imports symbol_imports
             all_functions (reverse_index all_functions) e.
Proof. rewrite lookup_build. apply fmap_Some. Qed.

Lemma elem_of_calls root module_imports symbol_imports all_functions
    symbol_to_func file_path f class_name x :
  x ∈ d_calls (function_detail relpath unparse root module_imports
                 symbol_imports all_functions symbol_to_func
                 (file_path, f, class_name))
  ↔ ∃ call_node, call_node ∈ walk (as_node f) ∧
      x ∈ contribution (module_name relpath file_path root) module_imports
            symbol_imports all_functions symbol_to_func call_node.
Proof.
  unfold function_detail. cbn [d_calls].
  rewrite foldl_visit_call. split; [|by right].
  intros [Hx|?]; [|done]. by apply not_elem_of_empty in Hx.
Qed.

End call_graph.

(** C2. In the enriched registry every call-edge set holds registered
    names only, each of them once; meeting a call a second time adds
    nothing, and so does a call whose resolution holds no registered
    name. *)
Theorem closed_world_call_edges relpath unparse py_files root
    (all_functions : registry) module_imports symbol_imports qname d :
  build_function_call_graph relpath unparse py_files root all_functions
    module_imports symbol_imports !! qname = Some d →
  d_calls d ⊆ dom all_functions ∧
  NoDup (elements (d_calls d)) ∧
  (∀ module called call_node,
     let visit := visit_call module module_imports symbol_imports all_functions
                    (reverse_index all_functions) in
     visit (visit called call_node) call_node = visit called call_node) ∧
  (∀ module called func call_args keywords name,
     callee_name func = Some name →
     (∀ r, r ∈ default ∅ (resolve_function_name name module module_imports
                            symbol_imports all_functions
                            (reverse_index all_functions)) →
           r ∉ dom all_functions) →
     visit_call module module_imports symbol_imports all_functions
       (reverse_index all_functions) called (Call func call_args keywords)
     = called).
Proof.
  intros ([[file_path f] class_name] & E & ->)%lookup_build_Some.
  split; [|split; [|split]].
  - intros x Hx.
    apply (elem_of_calls relpath unparse root module_imports symbol_imports
             all_functions _ file_path f class_name x) in Hx as [c [_ Hx]].
    by eapply contribution_subseteq.
  - apply NoDup_elements.
  - intros module called call_node visit. subst visit.
    rewrite !visit_call_union. set_solver.
  - intros module called func call_args keywords name Hname Habsent.
    rewrite visit_call_union. simpl. rewrite Hname.
    destruct (String.eqb name ""); [set_solver|].
    enough (kept all_functions
              (resolve_function_name name module module_imports symbol_imports
                 all_functions (reverse_index all_functions)) = ∅) as ->
      by set_solver.
    apply set_eq. intros r. unfold kept. rewrite elem_of_filter.
    split; [|set_solver]. intros [Hin Hr]. by apply Habsent in Hr.
Qed.

Lemma closed_world_call_edges_witness :
  let c := Project.collect twice_project ["/r/a.py"] "/r" in
  ∃ d, Project.run twice_project ["/r/a.py"] "/r" !! "a.main" = Some d ∧
       elements (d_calls d) = ["a.helper"] ∧
       d_calls d ⊆ dom (all_functions c) ∧
       visit_call "a" (module_imports c) (symbol_imports c) (all_functions c)
         (reverse_index (all_functions c)) {[ "a.helper" ]}
         (Call (Name "print") [] [])
       = {[ "a.helper" ]}.
Proof.
  intros c. eexists. split; [by vm_compute|]. split; [by vm_compute|].
  edestruct (closed_world_call_edges Project.relpath Project.unparse
               ["/r/a.py"] "/r" (all_functions c) (module_imports c)
               (symbol_imports c) "a.main") as (Hsub & _ & _ & Hext);
    [by vm_compute|].
  split; [exact Hsub|].
  apply (Hext "a" _ (Name "print") [] [] "print"); [reflexivity|].
  assert (resolve_function_name "print" "a" (module_imports c)
            (symbol_imports c) (all_functions c)
            (reverse_index (all_functions c)) = None) as -> by by vm_compute.
  intros r Hr. by apply not_elem_of_empty in Hr.
Defined.

(** ** Symbol imports *)

Lemma symbol_import_counterexample :
  let c := Project.collect util_project ["/r/a.py"; "/r/b.py"] "/r" in
  Project.calls_of util_project ["/r/a.py"; "/r/b.py"] "/r" "a.func"
    = Some ["b.C.util"; "b.util"] ∧
  ¬ symbol_import_as_stated Project.relpath Project.unparse
      ["/r/a.py"; "/r/b.py"] "/r" (all_functions c) (module_imports c) (symbol_imports c) "a" "b" "util".
Proof.
  intros c. split; [by vm_compute|]. intros Hclaim.
  destruct (all_functions c !! "a.func") as [[[file_path f] class_name]|] eqn:E;
    [|by vm_compute in E].
  destruct (build_function_call_graph Project.relpath Project.unparse
              ["/r/a.py"; "/r/b.py"] "/r" (all_functions c) (module_imports c) (symbol_imports c)
              !! "a.func") as [d|] eqn:Ed; [|by vm_compute in Ed].
  unfold symbol_import_as_stated in Hclaim.
  destruct (Hclaim) with (qname := "a.func") (file_path := file_path) (f := f)
    (class_name := class_name) (call_args := @nil node) (keywords := @nil node)
    (d := d) as [_ Hnot]; [evaluate..|done| | |done|].
  - vm_compute in E. by injection E as <- <- <-.
  - vm_compute in E. injection E as <- <- <-. vm_compute. repeat constructor.
  - apply (Hnot "b.C.util"); [evaluate..|].
    vm_compute in Ed. injection Ed as <-. evaluate.
Qed.

Lemma or_else_empty b : Str.or_else (Some b) "" = b.
Proof.
  unfold Str.or_else. by destruct (String.eqb_spec b "") as [->|].
Qed.

(** C3, amended. When [b.util] is registered, [a] has no local [util] and
    imports [util] from [b], a definition of [a] that calls [util()] gets
    the edge [b.util]; visiting this call adds to the edge set exactly the
    registered names that end in [.util] and start with [b]. *)
Theorem symbol_import_resolution relpath unparse py_files root
    (all_functions : registry) module_imports symbol_imports a b util
    qname file_path f class_name call_args keywords d :
  util ≠ "" →
  b +:+ "." +:+ util ∈ dom all_functions →
  local_scope util a all_functions = ∅ →
  default ∅ (symbol_imports !! a) !! util = Some (Some b, util) →
  all_functions !! qname = Some (file_path, f, class_name) →
  module_name relpath file_path root = a →
  Call (Name util) call_args keywords ∈ walk (as_node f) →
  build_function_call_graph relpath unparse py_files root all_functions
    module_imports symbol_imports !! qname = Some d →
  b +:+ "." +:+ util ∈ d_calls d ∧
  ∀ called q,
    q ∈ visit_call a module_imports symbol_imports all_functions
          (reverse_index all_functions) called
          (Call (Name util) call_args keywords)
    ↔ q ∈ called ∨
      q ∈ dom all_functions ∧
      Str.endswith q ("." +:+ util) = true ∧ Str.startswith q b = true.
Proof.
  intros Hutil Hreg Hlocal Himport Hentry Hmodule Hcall Hd.
  assert (∀ q, q ∈ contribution a module_imports symbol_imports all_functions
                     (reverse_index all_functions)
                     (Call (Name util) call_args keywords)
               ↔ q ∈ dom all_functions ∧
                 Str.endswith q ("." +:+ util) = true ∧
                 Str.startswith q b = true) as Hadds.
  { intros q. cbn [contribution callee_name].
    apply String.eqb_neq in Hutil. rewrite Hutil, resolve_unfold, Hlocal.
    rewrite bool_decide_false by (by intros []). rewrite Himport.
    rewrite bool_decide_true.
    - unfold kept, symbol_scope. cbn [from_option]. unfold id.
      rewrite !elem_of_filter, or_else_empty. tauto.
    - intros Hempty. apply (not_elem_of_empty (C:=gset string) (b +:+ "." +:+ util)).
      rewrite <- Hempty. apply elem_of_filter.
      by rewrite or_else_empty, StrFacts.endswith_app, StrFacts.startswith_app. }
  split; [|by intros called q; rewrite visit_call_union, elem_of_union, Hadds].
  apply lookup_build_Some in Hd as (e & He & ->).
  rewrite Hentry in He. injection He as <-.
  apply elem_of_calls. exists (Call (Name util) call_args keywords).
  split; [done|]. rewrite Hmodule. apply Hadds.
  by rewrite StrFacts.endswith_app, StrFacts.startswith_app.
Qed.

Lemma symbol_import_resolution_witness :
  let c := Project.collect util_project ["/r/a.py"; "/r/b.py"] "/r" in
  ∃ d, Project.run util_project ["/r/a.py"; "/r/b.py"] "/r" !! "a.func" = Some d ∧
       "b.util" ∈ d_calls d.
Proof.
  intros c. eexists. split; [evaluate|].
  edestruct (symbol_import_resolution Project.relpath Project.unparse
               ["/r/a.py"; "/r/b.py"] "/r" (all_functions c) (module_imports c) (symbol_imports c)
               "a" "b" "util" "a.func" "/r/a.py"
               (Project.fn "func" [] [Project.call_ "util"]) None [] [])
    as [Hedge _]; [..|exact Hedge].
  - done.
  - evaluate.
  - evaluate.
  - evaluate.
  - evaluate.
  - evaluate.
  - vm_compute. repeat constructor.
  - evaluate.
Defined.

(** ** Callee names *)

Lemma callee_name_Some func name :
  callee_name func = Some name ↔
  func = Name name ∨ ∃ receiver, func = Attribute (Name receiver) name.
Proof.
  split.
  - destruct func as [id|value attr| | | | | |]; simpl; try done.
    + intros [= ->]. by left.
    + destruct value as [receiver| | | | | | |]; try done.
      intros [= ->]. right. by exists receiver.
  - by intros [->|[receiver ->]].
Qed.

Lemma callee_name_None func :
  callee_name func = None ↔
  (∀ id, func ≠ Name id) ∧ (∀ receiver attr, func ≠ Attribute (Name receiver) attr).
Proof.
  split.
  - intros Hnone. split.
    + intros id ->. discriminate.
    + intros receiver attr ->. discriminate.
  - intros [Hname Hattr].
    destruct (callee_name func) as [name|] eqn:E; [|done].
    apply callee_name_Some in E as [->|[receiver ->]];
      [by destruct (Hname name) | by destruct (Hattr receiver name)].
Qed.

(** C4. A call yields a bare name in exactly two cases: the identifier
    of a called simple name, and the attribute of a called attribute
    access whose receiver is a simple name; any other callee yields none.
    The call-edge set of a definition consists of what the resolver finds
    for the names of the calls anywhere in the tree of the definition, at
    any depth, and of nothing else. *)
Theorem callee_name_extraction relpath unparse root module_imports
    symbol_imports (all_functions : registry) file_path f class_name :
  let d := function_detail relpath unparse root module_imports symbol_imports
             all_functions (reverse_index all_functions)
             (file_path, f, class_name) in
  (∀ id, callee_name (Name id) = Some id) ∧
  (∀ receiver attr, callee_name (Attribute (Name receiver) attr) = Some attr) ∧
  (∀ func, (∀ id, func ≠ Name id) →
           (∀ receiver attr, func ≠ Attribute (Name receiver) attr) →
           callee_name func = None) ∧
  (∀ x, x ∈ d_calls d ↔
        ∃ func call_args keywords name,
          within (as_node f) (Call func call_args keywords) ∧
          callee_name func = Some name ∧ name ≠ "" ∧
          x ∈ dom all_functions ∧
          x ∈ default ∅ (resolve_function_name name
                           (module_name relpath file_path root) module_imports
                           symbol_imports all_functions
                           (reverse_index all_functions))).
Proof.
  intros d. split; [done|]. split; [done|]. split.
  { intros func Hname Hattr. by apply callee_name_None. }
  intros x. subst d. rewrite elem_of_calls. split.
  - intros (call_node & Hwalk & Hx). apply elem_of_walk in Hwalk.
    destruct call_node as [| |func call_args keywords| | | | |];
      try by apply not_elem_of_empty in Hx.
    cbn [contribution] in Hx.
    destruct (callee_name func) as [name|] eqn:Hname;
      [|by apply not_elem_of_empty in Hx].
    destruct (String.eqb_spec name "") as [->|Hne];
      [by apply not_elem_of_empty in Hx|].
    apply elem_of_filter in Hx as [Hreg Hres].
    by exists func, call_args, keywords, name.
  - intros (func & call_args & keywords & name & Hin & Hname & Hne & Hreg & Hres).
    exists (Call func call_args keywords). split; [by apply elem_of_walk|].
    cbn [contribution]. rewrite Hname.
    apply String.eqb_neq in Hne. rewrite Hne. by apply elem_of_filter.
Qed.

Example nested_calls :
  Project.calls_of nested_project ["/r/m.py"] "/r" "m.outer"
  = Some ["m.a"; "m.b"; "m.c"; "m.e"].
Proof. evaluate. Qed.

Lemma callee_name_extraction_witness :
  let c := Project.collect nested_project ["/r/m.py"] "/r" in
  let d := function_detail Project.relpath Project.unparse "/r"
             (module_imports c) (symbol_imports c) (all_functions c)
             (reverse_index (all_functions c)) ("/r/m.py", outer_def, None) in
  "m.a" ∈ d_calls d ∧
  callee_name (Call (Name "c") [] []) = None ∧
  callee_name (Other [Name "d"; Name "i"]) = None.
Proof.
  intros c d.
  destruct (callee_name_extraction Project.relpath Project.unparse "/r"
              (module_imports c) (symbol_imports c) (all_functions c)
              "/r/m.py" outer_def None) as (_ & _ & Hnone & Hcalls).
  split; [|split].
  - apply Hcalls. exists (Name "a"), [], [], "a".
    split; [|split; [reflexivity|split; [done|split; evaluate]]].
    apply elem_of_walk. vm_compute. repeat constructor.
  - by apply Hnone.
  - by apply Hnone.
Defined.

(** ** Dictionaries filled by a sequence of assignments *)

Section assign_facts.

Context {V : Type}.

Implicit Types (l : list (string * V)) (m : gmap string V).

Lemma assign_app l1 l2 m : assign (l1 ++ l2) m = assign l2 (assign l1 m).
Proof. apply foldl_app. Qed.

Lemma assign_snoc l k v m : assign (l ++ [(k, v)]) m = <[k := v]> (assign l m).
Proof. by rewrite assign_app. Qed.

Lemma assign_lookup_notin l m k : k ∉ l.*1 → assign l m !! k = m !! k.
Proof.
  revert m. induction l as [|[k' v] l IH]; intros m Hk; [done|].
  simpl in *. apply not_elem_of_cons in Hk as [Hne Hk].
  rewrite IH by done. by rewrite lookup_insert_ne.
Qed.

(** The last assignment to a key wins. *)
Lemma assign_lookup_last l1 l2 m k v :
  k ∉ l2.*1 → assign (l1 ++ (k, v) :: l2) m !! k = Some v.
Proof.
  intros Hk. rewrite assign_app. simpl.
  rewrite assign_lookup_notin by done. apply lookup_insert_eq.
Qed.

Lemma assign_lookup_Some l m k v :
  assign l m !! k = Some v → (k, v) ∈ l ∨ m !! k = Some v.
Proof.
  revert m. induction l as [|[k' v'] l IH]; intros m; simpl; [by right|].
  intros [Hin|Hm]%IH; [left; by right|].
  destruct (decide (k' = k)) as [->|Hne].
  - rewrite lookup_insert_eq in Hm. injection Hm as ->. left. left.
  - rewrite lookup_insert_ne in Hm by done. by right.
Qed.

Lemma assign_lookup_is_Some l m k :
  k ∈ l.*1 → is_Some (assign l m !! k).
Proof.
  intros Hk. induction l as [|[k' v'] l IH] using rev_ind; [by inversion Hk|].
  rewrite assign_snoc. destruct (decide (k' = k)) as [->|Hne].
  - rewrite lookup_insert_eq. eauto.
  - rewrite lookup_insert_ne by done. apply IH.
    rewrite fmap_app, elem_of_app in Hk. destruct Hk as [Hk|Hk]; [done|].
    simpl in Hk. apply list_elem_of_singleton in Hk. by destruct Hne.
Qed.

(** After an assignment to [k], the value at [k] is an assigned one. *)
Lemma assign_lookup_filter_last l m k v0 v :
  assign ((k, v0) :: l) m !! k = Some v → (k, v) ∈ (k, v0) :: l.
Proof.
  simpl. intros [Hin|Hm]%assign_lookup_Some; [by right|].
  rewrite lookup_insert_eq in Hm. injection Hm as ->. left.
Qed.

(** When every assignment to [k] assigns [v], that is the value. *)
Lemma assign_lookup_unique l k v :
  (k, v) ∈ l → (∀ v', (k, v') ∈ l → v' = v) → assign l ∅ !! k = Some v.
Proof.
  intros Hin Hall.
  destruct (assign_lookup_is_Some l ∅ k) as [v' Hv'].
  { apply list_elem_of_fmap. by exists (k, v). }
  rewrite Hv'. f_equal.
  apply assign_lookup_Some in Hv' as [Hv'|Hv']; [by apply Hall|done].
Qed.

(** When the assignments to [k] all assign [v], and there is one. *)
Lemma assign_lookup_all l m k v :
  k ∈ l.*1 → (∀ v', (k, v') ∈ l → v' = v) → assign l m !! k = Some v.
Proof.
  induction l as [|[k' v'] l IH] using rev_ind; [by inversion 1|].
  intros Hk Hall. rewrite assign_snoc.
  destruct (decide (k' = k)) as [->|Hne].
  - rewrite lookup_insert_eq. f_equal. apply Hall, elem_of_app. right. left.
  - rewrite lookup_insert_ne by done. apply IH.
    + rewrite fmap_app, elem_of_app in Hk. destruct Hk as [Hk|Hk]; [done|].
      simpl in Hk. apply list_elem_of_singleton in Hk. by destruct Hne.
    + intros v'' Hin. apply Hall, elem_of_app. by left.
Qed.

(** The last assignment to a key that is assigned to. *)
Lemma assign_last_split l k :
  k ∈ l.*1 → ∃ l1 v l2, l = l1 ++ (k, v) :: l2 ∧ k ∉ l2.*1.
Proof.
  induction l as [|[k' v'] l IH]; [by inversion 1|].
  intros Hk. destruct (decide (k ∈ l.*1)) as [Hin|Hout].
  - destruct (IH Hin) as (l1 & v & l2 & -> & Hlast).
    by exists ((k', v') :: l1), v, l2.
  - apply elem_of_cons in Hk as [Hk|Hk]; [|done]. simpl in Hk. subst k'.
    by exists [], v', l.
Qed.

(** After an assignment to [k], the value at [k] does not depend on the
    dictionary the assignments started from. *)
Lemma assign_lookup_base l m m' k :
  k ∈ l.*1 → assign l m !! k = assign l m' !! k.
Proof.
  intros (l1 & v & l2 & -> & Hlast)%assign_last_split.
  by rewrite !assign_lookup_last.
Qed.

Lemma assign_lookup_later l1 l2 m k :
  k ∈ l2.*1 →
  ∃ l3 v l4, l2 = l3 ++ (k, v) :: l4 ∧ (k ∉ l4.*1) ∧
             assign (l1 ++ l2) m !! k = Some v.
Proof.
  intros (l3 & v & l4 & -> & Hlast)%assign_last_split.
  exists l3, v, l4. split; [done|]. split; [done|].
  rewrite app_assoc. by apply assign_lookup_last.
Qed.

(** Only the assignments to [k] matter for the value at [k]. *)
Lemma assign_lookup_filter l m k :
  assign l m !! k = assign (filter (λ kv, kv.1 = k) l) m !! k.
Proof.
  induction l as [|[k' v'] l IH] using rev_ind; [done|].
  rewrite filter_app, assign_snoc. simpl.
  destruct (decide (k' = k)) as [->|Hne].
  - rewrite filter_cons_True by done. rewrite assign_snoc.
    by rewrite !lookup_insert_eq.
  - rewrite filter_cons_False by done. rewrite app_nil_r.
    by rewrite lookup_insert_ne.
Qed.

End assign_facts.

(** ** The collector, file by file *)

Section collector.

Variable relpath : string → string → string.
Variable parse_file : string → string + list node.

Local Abbreviation module_name := (module_name relpath).
Local Abbreviation collect_file := (collect_file relpath parse_file).
Local Abbreviation file_registrations :=
  (file_registrations relpath parse_file).
Local Abbreviation registrations := (registrations relpath parse_file).
Local Abbreviation file_aliases := (file_aliases parse_file).
Local Abbreviation file_symbols := (file_symbols parse_file).
Local Abbreviation file_errors := (file_errors parse_file).

Lemma collect_methods_eq file_path module class_name body st :
  foldl (collect_method file_path module class_name) st body
  = mk_collected
      (assign (flat_map (method_registration file_path module class_name) body)
              (all_functions st))
      (module_imports st) (symbol_imports st) (error_log st).
Proof.
  revert st. induction body as [|item body IH]; intros st; simpl.
  - by destruct st.
  - rewrite IH. by destruct item.
Qed.

Lemma collect_imports_eq module names st t base :
  module_imports st = <[module := t]> base →
  foldl (collect_import module) st names
  = mk_collected (all_functions st)
      (<[module := foldl add_alias t names]> base)
      (symbol_imports st) (error_log st).
Proof.
  revert st t. induction names as [|a names IH]; intros st t Hst; simpl.
  - destruct st. simpl in *. by subst.
  - rewrite (IH _ (add_alias t a)); [done|].
    simpl. rewrite Hst. unfold add_alias. apply alter_insert_eq.
Qed.

Lemma collect_imports_from_eq module mod_ names st t base :
  symbol_imports st = <[module := t]> base →
  foldl (collect_import_from module mod_) st names
  = mk_collected (all_functions st) (module_imports st)
      (<[module := foldl (add_symbol mod_) t names]> base) (error_log st).
Proof.
  revert st t. induction names as [|a names IH]; intros st t Hst; simpl.
  - destruct st. simpl in *. by subst.
  - rewrite (IH _ (add_symbol mod_ t a)); [done|].
    simpl. rewrite Hst. unfold add_symbol. apply alter_insert_eq.
Qed.

Lemma collect_nodes_eq file_path module body st ta ts base_a base_s :
  module_imports st = <[module := ta]> base_a →
  symbol_imports st = <[module := ts]> base_s →
  foldl (collect_node file_path module) st body
  = mk_collected
      (assign (flat_map (node_registrations file_path module) body)
              (all_functions st))
      (<[module := foldl node_aliases ta body]> base_a)
      (<[module := foldl node_symbols ts body]> base_s)
      (error_log st).
Proof.
  revert st ta ts.
  induction body as [|n body IH]; intros st ta ts Ha Hs; simpl.
  - destruct st. simpl in *. by subst.
  - destruct n; simpl.
    + by apply IH.
    + by apply IH.
    + by apply IH.
    + erewrite IH by done. done.
    + rewrite collect_methods_eq. erewrite IH by done. simpl.
      by rewrite assign_app.
    + erewrite collect_imports_eq by done. erewrite IH; done.
    + erewrite collect_imports_from_eq by done. erewrite IH; done.
    + by apply IH.
Qed.

Lemma collect_file_eq root st file_path :
  collect_file root st file_path
  = mk_collected
      (assign (file_registrations root file_path) (all_functions st))
      (<[module_name file_path root := file_aliases file_path]>
         (module_imports st))
      (<[module_name file_path root := file_symbols file_path]>
         (symbol_imports st))
      (error_log st ++ file_errors file_path).
Proof.
  unfold collect_file, file_registrations, file_aliases, file_symbols,
    file_errors.
  destruct (parse_file file_path) as [e|body]; simpl; [done|].
  erewrite collect_nodes_eq by done. simpl. by rewrite app_nil_r.
Qed.

Lemma collect_files_eq root py_files st :
  foldl (collect_file root) st py_files
  = mk_collected
      (assign (registrations py_files root) (all_functions st))
      (assign (map (λ f, (module_name f root, file_aliases f)) py_files)
              (module_imports st))
      (assign (map (λ f, (module_name f root, file_symbols f)) py_files)
              (symbol_imports st))
      (error_log st ++ flat_map file_errors py_files).
Proof.
  revert st. induction py_files as [|f py_files IH]; intros st; simpl.
  - destruct st. simpl. by rewrite app_nil_r.
  - rewrite IH, collect_file_eq. simpl.
    by rewrite assign_app, app_assoc.
Qed.

(** The result of [collect_functions_and_imports] in closed form. *)
Lemma collect_eq py_files root :
  collect_functions_and_imports relpath parse_file py_files root
  = mk_collected
      (assign (registrations py_files root) ∅)
      (assign (map (λ f, (module_name f root, file_aliases f)) py_files) ∅)
      (assign (map (λ f, (module_name f root, file_symbols f)) py_files) ∅)
      (flat_map file_errors py_files).
Proof. unfold collect_functions_and_imports. by rewrite collect_files_eq. Qed.

End collector.

(** ** What gets registered *)

Section registration.

Variable relpath : string → string → string.
Variable parse_file : string → string + list node.

Local Abbreviation module_name := (module_name relpath).
Local Abbreviation assignments := (registrations relpath parse_file).
Local Abbreviation collect :=
  (collect_functions_and_imports relpath parse_file).
Local Abbreviation origin := (origin relpath parse_file).

Lemma elem_of_method_registration file_path module class_name item qe :
  qe ∈ method_registration file_path module class_name item ↔
  ∃ k d, item = Def k d ∧
         qe = (module +:+ "." +:+ class_name +:+ "." +:+ def_name d,
               (file_path, (k, d), Some class_name)).
Proof.
  destruct item; simpl; try (split; [by inversion 1 | by intros (?&?&?&?)]).
  rewrite list_elem_of_singleton. split; [by eauto|].
  by intros (?&?&[= <- <-]&?).
Qed.

Lemma elem_of_node_registrations file_path module n qe :
  qe ∈ node_registrations file_path module n ↔
  (∃ k d, n = Def k d ∧
          qe = (module +:+ "." +:+ def_name d, (file_path, (k, d), None))) ∨
  (∃ class_name bases keywords class_body decorator_list k d,
      n = ClassDef class_name bases keywords class_body decorator_list ∧
      Def k d ∈ class_body ∧
      qe = (module +:+ "." +:+ class_name +:+ "." +:+ def_name d,
            (file_path, (k, d), Some class_name))).
Proof.
  destruct n; simpl;
    try (split; [by inversion 1
                | by intros [(?&?&?&?)|(?&?&?&?&?&?&?&?&?)]]).
  - rewrite list_elem_of_singleton. split; [by left; eauto|].
    intros [(?&?&[= <- <-]&?)|(?&?&?&?&?&?&?&?&?)]; done.
  - rewrite elem_of_flat_map. split.
    + intros (item & Hitem & (k & d & -> & ->)%elem_of_method_registration).
      right. by repeat eexists.
    + intros [(?&?&?&?)|(?&?&?&?&?&k&d&[= <- <- <- <- <-]&Hin&->)]; [done|].
      exists (Def k d). split; [done|].
      apply elem_of_method_registration. eauto.
Qed.

Lemma elem_of_registrations py_files root q e :
  (q, e) ∈ assignments py_files root ↔
  ∃ file_path, file_path ∈ py_files ∧ origin root file_path q e.
Proof.
  unfold registrations. rewrite elem_of_flat_map.
  apply exist_proper. intros file_path. apply and_iff_compat_l.
  unfold file_registrations. split.
  - destruct (parse_file file_path) as [err|body] eqn:Hparse;
      [by inversion 1|].
    intros (n & Hn & Hqe)%elem_of_flat_map.
    apply elem_of_node_registrations in Hqe
      as [(k & d & -> & [= -> ->])
         |(cn & bs & kw & cb & dl & k & d & -> & Hin & [= -> ->])].
    + by eapply origin_function.
    + by eapply origin_method.
  - intros [body k d Hparse Hin
           |body cn bs kw cb dl k d Hparse Hclass Hin]; rewrite Hparse.
    + apply elem_of_flat_map. exists (Def k d). split; [done|].
      apply elem_of_node_registrations. left. eauto.
    + apply elem_of_flat_map. exists (ClassDef cn bs kw cb dl).
      split; [done|]. apply elem_of_node_registrations. right.
      by repeat eexists.
Qed.

(** Every entry of the registry was assigned by the collector, and every
    name the collector assigned is a key. *)
Lemma registry_lookup_origin py_files root q e :
  all_functions (collect py_files root) !! q = Some e →
  ∃ file_path, file_path ∈ py_files ∧ origin root file_path q e.
Proof.
  rewrite collect_eq. simpl.
  intros [Hin|Hempty]%assign_lookup_Some; [|done].
  by apply elem_of_registrations.
Qed.

Lemma registry_key py_files root file_path q e :
  file_path ∈ py_files → origin root file_path q e →
  q ∈ dom (all_functions (collect py_files root)).
Proof.
  intros Hfile Horigin. rewrite collect_eq. simpl.
  apply elem_of_dom, assign_lookup_is_Some, list_elem_of_fmap.
  exists (q, e). split; [done|]. apply elem_of_registrations. eauto.
Qed.

(** The entry of a name, from the place of an assignment to it. *)
Lemma registry_lookup_position py_files root l1 q e l2 :
  assignments py_files root = l1 ++ (q, e) :: l2 →
  (q ∉ l2.*1 → all_functions (collect py_files root) !! q = Some e) ∧
  (q ∈ l2.*1 →
   ∃ l3 e' l4, l2 = l3 ++ (q, e') :: l4 ∧ (q ∉ l4.*1) ∧
               all_functions (collect py_files root) !! q = Some e').
Proof.
  intros Hregs. rewrite collect_eq. simpl. rewrite Hregs. split.
  - apply assign_lookup_last.
  - intros Hlater. replace (l1 ++ (q, e) :: l2) with ((l1 ++ [(q, e)]) ++ l2)
      by by rewrite <- app_assoc.
    by apply assign_lookup_later.
Qed.

Lemma registry_lookup_registered py_files root q e :
  all_functions (collect py_files root) !! q = Some e →
  (q, e) ∈ assignments py_files root.
Proof.
  rewrite collect_eq. simpl. by intros [Hin|Hempty]%assign_lookup_Some.
Qed.

(** What holds of the entry under the name of a registered definition. *)
Lemma registration_entry py_files root file_path q file_path' f class_name :
  file_path ∈ py_files →
  origin root file_path q (file_path', f, class_name) →
  q ∈ dom (all_functions (collect py_files root)) ∧
  ∃ l1 l2,
    assignments py_files root = l1 ++ (q, (file_path', f, class_name)) :: l2 ∧
    (q ∉ l2.*1 →
     all_functions (collect py_files root) !! q
     = Some (file_path', f, class_name)) ∧
    (q ∈ l2.*1 →
     ∃ l3 e' l4, l2 = l3 ++ (q, e') :: l4 ∧ (q ∉ l4.*1) ∧
                 all_functions (collect py_files root) !! q = Some e') ∧
    ((∀ g f' class_name',
        (q, (g, f', class_name')) ∈ l2 → class_name' = class_name) →
     ∃ g f', all_functions (collect py_files root) !! q
             = Some (g, f', class_name)).
Proof.
  intros Hfile Horigin. split; [by eapply registry_key|].
  assert ((q, (file_path', f, class_name)) ∈ assignments py_files root)
    as (l1 & l2 & Hregs)%list_elem_of_split
    by (apply elem_of_registrations; eauto).
  destruct (registry_lookup_position py_files root l1 q _ l2 Hregs)
    as [Hlast Hlater].
  exists l1, l2. split; [done|]. split; [done|]. split; [done|].
  intros Hclass. destruct (decide (q ∈ l2.*1)) as [Hin|Hout].
  - destruct (Hlater Hin) as (l3 & [[g f'] class_name'] & l4 & -> & _ & He).
    exists g, f'. rewrite He. do 2 f_equal.
    apply (Hclass g f'). apply elem_of_app. right. left.
  - exists file_path', f. by apply Hlast.
Qed.

Lemma registry_lookup_unique py_files root file_path q e :
  file_path ∈ py_files → origin root file_path q e →
  (∀ file_path' e', file_path' ∈ py_files →
                    origin root file_path' q e' → e' = e) →
  all_functions (collect py_files root) !! q = Some e.
Proof.
  intros Hfile Horigin Hunique. rewrite collect_eq. simpl.
  apply assign_lookup_unique.
  - apply elem_of_registrations. eauto.
  - intros e' (file_path' & ? & ?)%elem_of_registrations. eauto.
Qed.

End registration.

Lemma collection_registration_counterexample :
  let c := Project.collect clash_project ["/r/a.py"; "/r/a/b.py"] "/r" in
  all_functions c !! "a.b.f" = Some ("/r/a/b.py", Project.fn "f" [] [], None) ∧
  ¬ registration_as_stated Project.relpath (Project.parse_in clash_project)
      ["/r/a.py"; "/r/a/b.py"] "/r".
Proof.
  intros c. split; [evaluate|]. intros Hclaim.
  destruct (Hclaim "/r/a.py"
              [ ClassDef "b" [] []
                  [Project.def_ "f" [mk_arg "self" None] []] [] ])
    as (_ & Hmethod & _); [repeat constructor | evaluate |].
  destruct (Hmethod "b" [] []
              [Project.def_ "f" [mk_arg "self" None] []] [] FunctionDef
              (mk_def "f" (Project.params [mk_arg "self" None]) [] [] None))
    as (file_path' & f & Hlookup); [repeat constructor..|].
  vm_compute in Hlookup. discriminate.
Qed.

(** C5, amended. For a file of the input that parses, the qualified name
    [mod.f] of each function [f] at its top level and the qualified name
    [mod.C.m] of each method [m] directly inside a class [C] at its top
    level are keys of the registry.  The entry under such a name is the
    one of the definition processed last among those assigned to the
    name: this definition when none assigned to the name follows it, the
    last of those that follow it otherwise, and this definition in any
    case when all the definitions assigned to the name are equal to it.
    So the entry is without enclosing class for [mod.f] provided no
    method that follows [f] is assigned to that name, and has the
    enclosing class [C] for [mod.C.m] provided every definition that
    follows [m] and is assigned to that name is a method of a class [C].
    Every entry of the registry stems from a top-level function or from
    a method directly inside a top-level class of a file of the input
    that parses, so that definitions nested more deeply are not
    registered. *)
Theorem collection_registration relpath parse_file py_files root file_path body :
  file_path ∈ py_files → parse_file file_path = inr body →
  let reg := all_functions
               (collect_functions_and_imports relpath parse_file py_files root) in
  let regs := registrations relpath parse_file py_files root in
  let module := module_name relpath file_path root in
  (∀ k d, Def k d ∈ body →
     let q := module +:+ "." +:+ def_name d in
     let e := (file_path, (k, d), None) in
     q ∈ dom reg ∧
     ((∀ e', (q, e') ∈ regs → e' = e) → reg !! q = Some e) ∧
     (∃ l1 l2,
        regs = l1 ++ (q, e) :: l2 ∧
        (q ∉ l2.*1 → reg !! q = Some e) ∧
        (q ∈ l2.*1 →
         ∃ l3 e' l4, l2 = l3 ++ (q, e') :: l4 ∧ (q ∉ l4.*1) ∧
                     reg !! q = Some e') ∧
        ((∀ g f' class_name', (q, (g, f', class_name')) ∈ l2 →
                              class_name' = None) →
         ∃ g f', reg !! q = Some (g, f', None)))) ∧
  (∀ class_name bases keywords class_body decorator_list k d,
     ClassDef class_name bases keywords class_body decorator_list ∈ body →
     Def k d ∈ class_body →
     let q := module +:+ "." +:+ class_name +:+ "." +:+ def_name d in
     let e := (file_path, (k, d), Some class_name) in
     q ∈ dom reg ∧
     ((∀ e', (q, e') ∈ regs → e' = e) → reg !! q = Some e) ∧
     (∃ l1 l2,
        regs = l1 ++ (q, e) :: l2 ∧
        (q ∉ l2.*1 → reg !! q = Some e) ∧
        (q ∈ l2.*1 →
         ∃ l3 e' l4, l2 = l3 ++ (q, e') :: l4 ∧ (q ∉ l4.*1) ∧
                     reg !! q = Some e') ∧
        ((∀ g f' class_name', (q, (g, f', class_name')) ∈ l2 →
                              class_name' = Some class_name) →
         ∃ g f', reg !! q = Some (g, f', Some class_name)))) ∧
  (∀ q e, reg !! q = Some e →
     ∃ file_path', file_path' ∈ py_files ∧
                   origin relpath parse_file root file_path' q e).
Proof.
  intros Hfile Hparse reg regs module. split; [|split].
  - intros k d Hin q e.
    assert (origin relpath parse_file root file_path q e) as Horigin
      by by eapply origin_function.
    destruct (registration_entry relpath parse_file py_files root file_path q
                file_path (k, d) None Hfile Horigin)
      as (Hkey & Hplace).
    split; [done|]. split; [|done].
    intros Hunique. eapply registry_lookup_unique; [done..|].
    intros file_path' e' ? ?. apply Hunique, elem_of_registrations. eauto.
  - intros class_name bases keywords class_body decorator_list k d Hclass Hin q e.
    assert (origin relpath parse_file root file_path q e) as Horigin
      by by eapply origin_method.
    destruct (registration_entry relpath parse_file py_files root file_path q
                file_path (k, d) (Some class_name) Hfile Horigin)
      as (Hkey & Hplace).
    split; [done|]. split; [|done].
    intros Hunique. eapply registry_lookup_unique; [done..|].
    intros file_path' e' ? ?. apply Hunique, elem_of_registrations. eauto.
  - apply registry_lookup_origin.
Qed.

Lemma collection_registration_witness :
  let c := Project.collect shapes_project ["/r/m.py"] "/r" in
  let c' := Project.collect redefined_project ["/r/a.py"] "/r" in
  dom (all_functions c) = {[ "m.f"; "m.C.m"; "m.outer" ]} ∧
  all_functions c !! "m.f" = Some ("/r/m.py", Project.fn "f" [] [], None) ∧
  "m.C.m" ∈ dom (all_functions c) ∧
  ∃ g f', all_functions c' !! "a.f" = Some (g, f', None).
Proof.
  intros c c'. split; [evaluate|].
  destruct (collection_registration Project.relpath
              (Project.parse_in shapes_project) ["/r/m.py"] "/r" "/r/m.py"
              shapes_body) as (Hfun & Hmeth & _);
    [repeat constructor | evaluate |].
  destruct (collection_registration Project.relpath
              (Project.parse_in redefined_project) ["/r/a.py"] "/r" "/r/a.py"
              [ Project.def_ "f" [] [];
                Project.def_ "f" [mk_arg "x" None] [] ]) as (Hfun' & _);
    [repeat constructor | evaluate |].
  split; [|split].
  - apply (Hfun FunctionDef (mk_def "f" (Project.params []) [] [] None));
      [repeat constructor|].
    intros e' He'. vm_compute in He'.
    repeat (apply elem_of_cons in He' as [He'|He']; [by inversion He'|]).
    by inversion He'.
  - apply (Hmeth "C" [] []
             [ Project.def_ "m" [mk_arg "self" None] [];
               ClassDef "D" [] []
                 [Project.def_ "deep" [mk_arg "self" None] []] [] ] []
             FunctionDef
             (mk_def "m" (Project.params [mk_arg "self" None]) [] [] None));
      repeat constructor.
  - destruct (Hfun' FunctionDef (mk_def "f" (Project.params []) [] [] None))
      as (_ & _ & l1 & l2 & Hregs & _ & _ & Hclass); [repeat constructor|].
    apply Hclass. intros g f' class_name' He'.
    assert ((("a.f", (g, f', class_name')) : string * _)
            ∈ registrations Project.relpath
                (Project.parse_in redefined_project) ["/r/a.py"] "/r") as Hin.
    { rewrite Hregs. apply elem_of_app. right. by right. }
    vm_compute in Hin.
    repeat (apply elem_of_cons in Hin as [Hin|Hin]; [by inversion Hin|]).
    by inversion Hin.
Defined.

(** ** Collisions of qualified names *)

Lemma collision_overwrite_counterexample :
  let c := Project.collect thrice_defined_project ["/r/a.py"] "/r" in
  all_functions c !! "a.f"
  = Some ("/r/a.py",
          Project.fn "f" [mk_arg "x" None; mk_arg "y" None] [], None) ∧
  ¬ collision_as_stated Project.relpath
      (Project.parse_in thrice_defined_project) ["/r/a.py"] "/r".
Proof.
  intros c. split; [evaluate|]. intros Hclaim.
  destruct (Hclaim [] "a.f" ("/r/a.py", Project.fn "f" [] [], None)
              [] ("/r/a.py", Project.fn "f" [mk_arg "x" None] [], None)
              [ ("a.f", ("/r/a.py",
                         Project.fn "f" [mk_arg "x" None; mk_arg "y" None] [],
                         None)) ])
    as [_ Hsecond]; [evaluate|].
  vm_compute in Hsecond. discriminate.
Qed.

(** C8, amended. When two definitions are assigned to the same qualified
    name, the collector logs nothing about it (its log holds the parse
    failures only) and the registry ends up with the definition that is
    assigned to the name last: with the second of the two when no further
    definition is assigned to that name after it, with one assigned after
    the second otherwise. *)
Theorem collision_overwrite relpath parse_file py_files root
    before q e1 between e2 after :
  registrations relpath parse_file py_files root
  = before ++ (q, e1) :: between ++ (q, e2) :: after →
  let c := collect_functions_and_imports relpath parse_file py_files root in
  (∀ line, line ∈ error_log c →
     ∃ file_path e, file_path ∈ py_files ∧ parse_file file_path = inl e ∧
                    line = "Failed to parse " +:+ file_path +:+ ": " +:+ e) ∧
  (∃ e, all_functions c !! q = Some e ∧ (q, e) ∈ (q, e2) :: after) ∧
  (q ∉ after.*1 → all_functions c !! q = Some e2) ∧
  (q ∈ after.*1 →
   ∃ l3 e l4, after = l3 ++ (q, e) :: l4 ∧ (q ∉ l4.*1) ∧
              all_functions c !! q = Some e) ∧
  (∃ l1 e l2, registrations relpath parse_file py_files root
              = l1 ++ (q, e) :: l2 ∧
              (q ∉ l2.*1) ∧ all_functions c !! q = Some e).
Proof.
  intros Hregs c.
  assert (registrations relpath parse_file py_files root
          = (before ++ (q, e1) :: between) ++ (q, e2) :: after) as Hregs'
    by by rewrite <- app_assoc.
  destruct (registry_lookup_position relpath parse_file py_files root
              _ q e2 after Hregs') as [Hlast Hlater].
  assert (∃ l1 e l2, registrations relpath parse_file py_files root
                     = l1 ++ (q, e) :: l2 ∧
                     (q ∉ l2.*1) ∧ all_functions c !! q = Some e) as Hexact.
  { destruct (assign_last_split
                (registrations relpath parse_file py_files root) q)
      as (l1 & e & l2 & Hsplit & Hno).
    { rewrite Hregs', fmap_app, elem_of_app. right. left. }
    exists l1, e, l2. split; [done|]. split; [done|].
    by apply (registry_lookup_position relpath parse_file py_files root
                l1 q e l2 Hsplit). }
  split; [|split; [|split; [done|split; [done|done]]]];
    subst c; rewrite collect_eq; simpl.
  - intros line (file_path & Hfile & Hline)%elem_of_flat_map.
    unfold file_errors in Hline.
    destruct (parse_file file_path) as [e|body] eqn:Hparse;
      [|by inversion Hline].
    apply list_elem_of_singleton in Hline. by exists file_path, e.
  - rewrite Hregs.
    replace (before ++ (q, e1) :: between ++ (q, e2) :: after)
      with ((before ++ (q, e1) :: between) ++ (q, e2) :: after)
      by by rewrite <- app_assoc.
    rewrite assign_app.
    destruct (assign_lookup_is_Some ((q, e2) :: after)
                (assign (before ++ (q, e1) :: between) ∅) q) as [e He];
      [left|].
    exists e. split; [done|].
    apply assign_lookup_filter_last in He. done.
Qed.

Lemma collision_overwrite_witness :
  let c := Project.collect redefined_project ["/r/a.py"] "/r" in
  all_functions c !! "a.f"
  = Some ("/r/a.py", Project.fn "f" [mk_arg "x" None] [], None) ∧
  error_log c = [].
Proof.
  intros c.
  destruct (collision_overwrite Project.relpath
              (Project.parse_in redefined_project) ["/r/a.py"] "/r"
              [] "a.f" ("/r/a.py", Project.fn "f" [] [], None)
              [] ("/r/a.py", Project.fn "f" [mk_arg "x" None] [], None) [])
    as (_ & _ & Hlast & _); [evaluate|].
  split; [|evaluate]. apply Hlast. by inversion 1.
Defined.

(** ** The import tables after collection *)

Section import_tables.

Variable relpath : string → string → string.
Variable parse_file : string → string + list node.

Local Abbreviation module_name := (module_name relpath).
Local Abbreviation collect :=
  (collect_functions_and_imports relpath parse_file).


Lemma file_symbols_failed file_path e :
  parse_file file_path = inl e → file_symbols parse_file file_path = ∅.
Proof. unfold file_symbols. by intros ->. Qed.


Lemma table_last {V} (value : string → V) root before file_path after v :
  (∀ g, g ∈ file_path :: after →
        module_name g root = module_name file_path root → value g = v) →
  assign (map (λ f, (module_name f root, value f))
              (before ++ file_path :: after)) ∅
    !! module_name file_path root = Some v.
Proof.
  intros Hall. rewrite map_app, assign_app. apply assign_lookup_all.
  - left.
  - intros v' (g & [= Hm ->] & Hg)%list_elem_of_fmap. by apply Hall.
Qed.

End import_tables.




(** ** Files that fail to parse *)

Section isolation.

Variable relpath : string → string → string.
Variable parse_file : string → string + list node.
Variable unparse : node → string.

Local Abbreviation module_name := (module_name relpath).
Local Abbreviation collect :=
  (collect_functions_and_imports relpath parse_file).
Local Abbreviation analysis := (analyse relpath parse_file unparse).
Local Abbreviation report := (mapping_md relpath parse_file unparse).

Lemma origin_file root file_path q file_path' f class_name :
  origin relpath parse_file root file_path q (file_path', f, class_name) →
  file_path' = file_path ∧ ∃ body, parse_file file_path = inr body.
Proof. inversion 1; eauto. Qed.

(** The resolver reads the symbol table of the calling module only. *)
Lemma resolve_ext name current_module module_imports module_imports'
    symbol_imports symbol_imports' (all_functions : registry) symbol_to_func :
  symbol_imports !! current_module = symbol_imports' !! current_module →
  resolve_function_name name current_module module_imports symbol_imports
    all_functions symbol_to_func
  = resolve_function_name name current_module module_imports' symbol_imports'
      all_functions symbol_to_func.
Proof. intros Heq. unfold resolve_function_name. by rewrite Heq. Qed.

Lemma function_detail_ext root module_imports module_imports'
    symbol_imports symbol_imports' (all_functions : registry) symbol_to_func
    file_path f class_name :
  symbol_imports !! module_name file_path root
  = symbol_imports' !! module_name file_path root →
  function_detail relpath unparse root module_imports symbol_imports
    all_functions symbol_to_func (file_path, f, class_name)
  = function_detail relpath unparse root module_imports' symbol_imports'
      all_functions symbol_to_func (file_path, f, class_name).
Proof.
  intros Heq. unfold function_detail. f_equal.
  generalize (∅ : gset string). generalize (walk (as_node f)).
  intros nodes. induction nodes as [|n nodes IH]; intros called; simpl;
    [done|].
  rewrite IH. f_equal. unfold visit_call.
  destruct n as [| |func ? ?| | | | |]; try done.
  destruct (callee_name func) as [name|]; [|done].
  destruct (String.eqb name ""); [done|].
  by rewrite (resolve_ext _ _ _ module_imports' _ symbol_imports').
Qed.

Lemma build_ext py_files py_files' root (all_functions : registry)
    module_imports module_imports' symbol_imports symbol_imports' :
  (∀ q file_path f class_name,
     all_functions !! q = Some (file_path, f, class_name) →
     symbol_imports !! module_name file_path root
     = symbol_imports' !! module_name file_path root) →
  build_function_call_graph relpath unparse py_files root all_functions
    module_imports symbol_imports
  = build_function_call_graph relpath unparse py_files' root all_functions
      module_imports' symbol_imports'.
Proof.
  intros Heq. unfold build_function_call_graph. apply map_fmap_ext.
  intros q [[file_path f] class_name] Hq.
  apply function_detail_ext. by eapply Heq.
Qed.

Lemma flat_map_filter {A B} (P : A → Prop) `{∀ x, Decision (P x)}
    (f : A → list B) l :
  (∀ x, x ∈ l → ¬ P x → f x = []) → flat_map f (filter P l) = flat_map f l.
Proof.
  induction l as [|x l IH]; intros Hnil; [done|].
  rewrite filter_cons. simpl. destruct (decide (P x)) as [HP|HP]; simpl.
  - rewrite IH; [done|]. intros y Hy. apply Hnil. by right.
  - rewrite (Hnil x) by (done || left). rewrite IH; [done|].
    intros y Hy. apply Hnil. by right.
Qed.

Lemma filter_map_key {V} (key : string → string) (value : string → V)
    (P : string → Prop) `{∀ x, Decision (P x)} k l :
  (∀ x, x ∈ l → ¬ P x → key x ≠ k) →
  filter (λ kv, kv.1 = k) (map (λ f, (key f, value f)) (filter P l))
  = filter (λ kv, kv.1 = k) (map (λ f, (key f, value f)) l).
Proof.
  induction l as [|x l IH]; intros Hkey; [done|].
  rewrite (filter_cons P). destruct (decide (P x)) as [HP|HP]; simpl.
  - rewrite !filter_cons. simpl. rewrite IH; [done|].
    intros y Hy. apply Hkey. by right.
  - rewrite filter_cons_False by (simpl; apply Hkey; [left|done]).
    apply IH. intros y Hy. apply Hkey. by right.
Qed.

(** Leaving out files that fail to parse changes neither the registry
    nor the symbol table of any module that does not share its name
    with one of them. *)
Lemma collect_without_failures (keep : string → Prop)
    `{∀ x, Decision (keep x)} py_files root :
  (∀ f, f ∈ py_files → ¬ keep f → ∃ e, parse_file f = inl e) →
  all_functions (collect (filter keep py_files) root)
  = all_functions (collect py_files root) ∧
  ∀ module,
    (∀ f, f ∈ py_files → ¬ keep f → module_name f root ≠ module) →
    symbol_imports (collect (filter keep py_files) root) !! module
    = symbol_imports (collect py_files root) !! module.
Proof.
  intros Hfail. rewrite !collect_eq. simpl. split.
  - unfold registrations. rewrite flat_map_filter; [done|].
    intros f Hf Hdrop. destruct (Hfail f Hf Hdrop) as [e He].
    unfold file_registrations. by rewrite He.
  - intros module Hmodule.
    rewrite assign_lookup_filter, filter_map_key by done.
    by rewrite <- assign_lookup_filter.
Qed.

Lemma filter_keeps {A} (P : A → Prop) `{∀ x, Decision (P x)} (l : list A) :
  (∀ x, x ∈ l → P x) → filter P l = l.
Proof.
  induction l as [|x l IH]; intros Hall; [done|].
  rewrite filter_cons_True by (apply Hall; left). f_equal.
  apply IH. intros y Hy. apply Hall. by right.
Qed.

(** Leaving out a file does not change the symbol table of its module
    when another file of that module is processed after it. *)
Lemma symbols_not_last before g after file_path root :
  g ≠ file_path → file_path ∉ after →
  symbol_imports
    (collect (filter (λ x, x ≠ file_path) (before ++ g :: after)) root)
    !! module_name g root
  = symbol_imports (collect (before ++ g :: after) root) !! module_name g root.
Proof.
  intros Hg Hafter. rewrite !collect_eq. simpl. rewrite filter_app.
  rewrite (filter_keeps _ (g :: after)).
  - rewrite !map_app, !assign_app. apply assign_lookup_base. left.
  - intros x [->|Hx]%elem_of_cons; [done|]. by intros ->.
Qed.

(** The symbol table of a module none of whose files leaves an entry in
    it. *)
Lemma symbols_empty files root g :
  g ∈ files →
  (∀ x, x ∈ files → module_name x root = module_name g root →
        file_symbols parse_file x = ∅) →
  symbol_imports (collect files root) !! module_name g root = Some ∅.
Proof.
  intros Hg Hall. rewrite collect_eq. simpl. apply assign_lookup_all.
  - apply list_elem_of_fmap.
    exists (module_name g root, file_symbols parse_file g). split; [done|].
    apply list_elem_of_fmap. by exists g.
  - intros v' (x & [= Hm ->] & Hx)%list_elem_of_fmap. by apply Hall.
Qed.

Lemma elem_of_map_to_list_keys {V} (m : gmap string V) q :
  q ∈ (map_to_list m).*1 ↔ q ∈ dom m.
Proof.
  rewrite elem_of_dom, list_elem_of_fmap. split.
  - intros ([k v] & -> & Hkv%elem_of_map_to_list). by exists v.
  - intros [v Hv]. exists (q, v). split; [done|].
    by apply elem_of_map_to_list.
Qed.

(** The sections of the report are headed by the keys of the registry. *)
Lemma report_sections py_files root q :
  q ∈ (sorted_items (analysis py_files root)).*1 ↔
  q ∈ dom (all_functions (collect py_files root)).
Proof.
  unfold sorted_items. rewrite merge_sort_Permutation.
  unfold analyse, build_function_call_graph.
  by rewrite elem_of_map_to_list_keys, dom_fmap_L.
Qed.

End isolation.

Lemma parse_failure_isolation_counterexample :
  Project.calls_of shadow_project
    ["/r/lib.py"; "/r/other.py"; "/r/pkg.py"; "/r/pkg/__init__.py"] "/r" "pkg.f"
  = Some ["lib.util"; "other.util"] ∧
  Project.calls_of shadow_project
    ["/r/lib.py"; "/r/other.py"; "/r/pkg.py"] "/r" "pkg.f"
  = Some ["lib.util"] ∧
  ¬ isolation_as_stated Project.relpath (Project.parse_in shadow_project)
      Project.unparse
      ["/r/lib.py"; "/r/other.py"; "/r/pkg.py"; "/r/pkg/__init__.py"] "/r".
Proof.
  split; [evaluate|]. split; [evaluate|]. intros Hclaim.
  destruct (Hclaim "/r/pkg/__init__.py" "invalid syntax (__init__.py, line 1)")
    as (_ & _ & Hsame); [repeat constructor | evaluate |].
  apply (f_equal (λ fd, d_calls <$> fd !! "pkg.f")) in Hsame.
  vm_compute in Hsame. discriminate.
Qed.

(** C6, amended. When the parse of an input file fails, an error line
    with the name of the file is logged, no entry of the registry stems
    from the file, the sections of the report are those of the registry
    keys and the call edges are registry keys too, and the registry is
    the one that the other files alone give;
    the call graph and the report are those of the other files alone as
    well, provided the input files that parse and have the module name of
    the failing file (if any) have no [from ... import] at their top
    level, or some other input file with the module name of the failing
    file is processed after it. *)
Theorem parse_failure_isolation relpath parse_file unparse py_files root
    file_path e :
  file_path ∈ py_files → parse_file file_path = inl e →
  let c := collect_functions_and_imports relpath parse_file py_files root in
  let others := filter (λ g, g ≠ file_path) py_files in
  "Failed to parse " +:+ file_path +:+ ": " +:+ e ∈ error_log c ∧
  (∀ q f class_name, all_functions c !! q ≠ Some (file_path, f, class_name)) ∧
  (∀ q, q ∈ (sorted_items (analyse relpath parse_file unparse py_files root)).*1
        ↔ q ∈ dom (all_functions c)) ∧
  (∀ q d, analyse relpath parse_file unparse py_files root !! q = Some d →
          d_calls d ⊆ dom (all_functions c)) ∧
  all_functions c
  = all_functions (collect_functions_and_imports relpath parse_file others root) ∧
  ((∀ g body, g ∈ py_files → parse_file g = inr body →
              module_name relpath g root = module_name relpath file_path root →
              file_symbols parse_file g = ∅) ∨
   (∃ before g after,
      py_files = before ++ g :: after ∧ g ≠ file_path ∧ (file_path ∉ after) ∧
      module_name relpath g root = module_name relpath file_path root) →
   analyse relpath parse_file unparse py_files root
   = analyse relpath parse_file unparse others root ∧
   mapping_md relpath parse_file unparse py_files root
   = mapping_md relpath parse_file unparse others root).
Proof.
  intros Hfile Hfail c others.
  assert (∀ f, f ∈ py_files → ¬ f ≠ file_path → ∃ e, parse_file f = inl e)
    as Hdropped.
  { intros f _ Hf. destruct (decide (f = file_path)) as [->|]; [eauto|done]. }
  destruct (collect_without_failures relpath parse_file
              (λ g, g ≠ file_path) py_files root Hdropped) as [Hreg Hsym].
  split; [|split; [|split; [|split; [|split]]]].
  - subst c. rewrite collect_eq. simpl. apply elem_of_flat_map.
    exists file_path. split; [done|]. unfold file_errors. rewrite Hfail. left.
  - intros q f class_name Hq.
    apply registry_lookup_origin in Hq as (file_path' & _ & Horigin).
    apply origin_file in Horigin as [<- [body Hbody]]. congruence.
  - apply report_sections.
  - unfold analyse. fold c.
    intros q d ([[g f] class_name] & _ & ->)%lookup_build_Some x Hx.
    apply (elem_of_calls relpath unparse root (module_imports c)
             (symbol_imports c) (all_functions c) _ g f class_name x)
      in Hx as [call_node [_ Hx]].
    by eapply contribution_subseteq.
  - done.
  - intros Hmodule.
    assert (analyse relpath parse_file unparse py_files root
            = analyse relpath parse_file unparse others root) as Hsame.
    { unfold analyse. fold c. subst others. rewrite Hreg.
      apply build_ext. intros q g f class_name Hq. symmetry.
      assert (∀ f', f' ∈ py_files → ¬ f' ≠ file_path → f' = file_path)
        as Hdrop.
      { intros f' _ Hf'. by destruct (decide (f' = file_path)). }
      destruct Hmodule as [Hmodule|(before & g' & after & Hfiles & Hg' & Hlast
                                    & Hname)].
      - destruct (decide (module_name relpath g root
                          = module_name relpath file_path root)) as [Heq|Hne].
        + apply registry_lookup_origin in Hq as (g' & Hg' & Horigin).
          apply origin_file in Horigin as [<- [body Hbody]].
          assert (∀ x, x ∈ py_files →
                       module_name relpath x root = module_name relpath g root →
                       file_symbols parse_file x = ∅) as Hempty.
          { intros x Hx Hname. rewrite Heq in Hname.
            destruct (parse_file x) as [e'|body'] eqn:Hparse.
            - by eapply file_symbols_failed.
            - by eapply Hmodule. }
          unfold c. rewrite !symbols_empty; [done|done|done| |].
          * apply list_elem_of_filter. split; [congruence|done].
          * intros x [_ Hx]%list_elem_of_filter. by apply Hempty.
        + apply Hsym. by intros f' Hf' ->%Hdrop.
      - destruct (decide (module_name relpath g root
                          = module_name relpath file_path root)) as [Heq|Hne].
        + unfold c. rewrite Heq, <- Hname, Hfiles. by apply symbols_not_last.
        + apply Hsym. by intros f' Hf' ->%Hdrop. }
    split; [done|]. unfold mapping_md, write_markdown. by rewrite Hsame.
Qed.

Lemma parse_failure_isolation_witness :
  let files := [ ("/r/a.py", inr [ Project.def_ "f" [] [] ]);
                 ("/r/bad.py", inl "invalid syntax (bad.py, line 1)") ] in
  let c := Project.collect files ["/r/a.py"; "/r/bad.py"] "/r" in
  let py_files :=
    ["/r/lib.py"; "/r/other.py"; "/r/pkg.py"; "/r/pkg/__init__.py"] in
  error_log c = ["Failed to parse /r/bad.py: invalid syntax (bad.py, line 1)"] ∧
  dom (all_functions c) = {[ "a.f" ]} ∧
  Project.run files ["/r/a.py"; "/r/bad.py"] "/r"
  = Project.run files ["/r/a.py"] "/r" ∧
  Project.calls_of package_first_project py_files "/r" "pkg.f"
  = Some ["lib.util"] ∧
  Project.run package_first_project py_files "/r"
  = Project.run package_first_project
      ["/r/lib.py"; "/r/other.py"; "/r/pkg/__init__.py"] "/r".
Proof.
  intros files c py_files. split; [evaluate|]. split; [evaluate|].
  destruct (parse_failure_isolation Project.relpath (Project.parse_in files)
              Project.unparse ["/r/a.py"; "/r/bad.py"] "/r" "/r/bad.py"
              "invalid syntax (bad.py, line 1)")
    as (_ & _ & _ & _ & _ & Hsame); [repeat constructor | evaluate |].
  destruct (parse_failure_isolation Project.relpath
              (Project.parse_in package_first_project) Project.unparse
              py_files "/r" "/r/pkg.py" "invalid syntax (pkg.py, line 1)")
    as (_ & _ & _ & _ & _ & Hsame'); [repeat constructor | evaluate |].
  split; [|split; [evaluate|]].
  - apply Hsame. left. intros g body Hg Hbody _.
    apply elem_of_cons in Hg as [->|Hg]; [evaluate|].
    apply list_elem_of_singleton in Hg as ->. vm_compute in Hbody.
    discriminate.
  - apply Hsame'. right.
    exists ["/r/lib.py"; "/r/other.py"; "/r/pkg.py"], "/r/pkg/__init__.py", [].
    split; [reflexivity|]. split; [done|]. split; [|reflexivity].
    by intros ?%elem_of_nil.
Defined.

(** ** Parameters and return types *)

Lemma parameter_capture_counterexample :
  let d := function_detail Project.relpath Project.unparse "/r" ∅ ∅
             {[ "a.f" := ("/r/a.py", keyword_only_def, None) ]}
             (reverse_index {[ "a.f" := ("/r/a.py", keyword_only_def, None) ]})
             ("/r/a.py", keyword_only_def, None) in
  d_args d = [("x", "Any")] ∧ d_return d = "Any" ∧
  ¬ capture_as_stated Project.unparse keyword_only_def d.
Proof.
  intros d. split; [evaluate|]. split; [evaluate|].
  intros [Hargs _]. vm_compute in Hargs. discriminate.
Qed.

(** C7, amended. For every definition, the recorded parameter list is
    the list, in order, of its ordinary (positional-or-keyword)
    parameters, each name paired with the text of its annotation, the
    text [Any] standing in for a missing annotation; the positional-only
    and keyword-only parameters, [*args] and [**kwargs] are left out of
    it, so that it is the list of all the parameters when the definition
    has none of these.  The recorded return type is the text of the
    return annotation, or [Any] without one. *)
Theorem parameter_capture relpath unparse root module_imports symbol_imports
    (all_functions : registry) symbol_to_func file_path f class_name :
  let d := function_detail relpath unparse root module_imports symbol_imports
             all_functions symbol_to_func (file_path, f, class_name) in
  let record := λ a, (arg a, from_option unparse "Any" (annotation a)) in
  d_args d = map record (args (def_args f.2)) ∧
  d_return d = from_option unparse "Any" (def_returns f.2) ∧
  sublist (d_args d) (map record (parameters (def_args f.2))) ∧
  (posonlyargs (def_args f.2) = [] → vararg (def_args f.2) = None →
   kwonlyargs (def_args f.2) = [] → kwarg (def_args f.2) = None →
   d_args d = map record (parameters (def_args f.2))).
Proof.
  intros d record.
  assert (d_args d = map record (args (def_args f.2))) as Hargs.
  { subst d. unfold function_detail. cbn [d_args]. apply map_ext.
    by intros a. }
  split; [done|]. split; [done|]. split.
  - rewrite Hargs. unfold parameters. apply (fmap_sublist record).
    apply sublist_inserts_l, sublist_inserts_r. done.
  - intros Hpos Hvar Hkw Hkwarg. rewrite Hargs. unfold parameters.
    rewrite Hpos, Hvar, Hkw, Hkwarg. simpl. by rewrite app_nil_r.
Qed.

Lemma parameter_capture_witness :
  let d := function_detail Project.relpath Project.unparse "/r" ∅ ∅ ∅ ∅
             ("/r/a.py", annotated_def, None) in
  let d' := function_detail Project.relpath Project.unparse "/r" ∅ ∅ ∅ ∅
              ("/r/a.py", keyword_only_def, None) in
  d_args d = [("v", "Vector"); ("k", "Any")] ∧ d_return d = "Vector" ∧
  d_args d' = [("x", "Any")] ∧ d_return d' = "Any".
Proof.
  intros d d'.
  destruct (parameter_capture Project.relpath Project.unparse "/r" ∅ ∅ ∅ ∅
              "/r/a.py" annotated_def None) as (_ & Hreturn & _ & Hall).
  destruct (parameter_capture Project.relpath Project.unparse "/r" ∅ ∅ ∅ ∅
              "/r/a.py" keyword_only_def None) as (Hargs' & Hreturn' & _).
  split; [by apply Hall|]. split; [exact Hreturn|].
  split; [exact Hargs'|exact Hreturn'].
Defined.

(** * Part III: further properties of the program *)

(** ** More on strings *)

Module TextFacts.
Import Str.

Lemma app_assoc (a b c : string) : (a +:+ b) +:+ c = a +:+ (b +:+ c).
Proof.
  induction a as [|x a IH]; [done|].
  rewrite !StrFacts.app_cons. by rewrite IH.
Qed.

Lemma app_nil_r (a : string) : a +:+ "" = a.
Proof.
  induction a as [|x a IH]; [done|]. rewrite StrFacts.app_cons. by rewrite IH.
Qed.

Lemma split_app_sep sep s x :
  ∃ l, l ≠ [] ∧ split sep (s +:+ String sep x) = l ++ split sep x.
Proof.
  induction s as [|a s (l & Hl & IH)].
  - exists [""]. split; [done|]. rewrite StrFacts.app_nil_l. simpl.
    by rewrite Ascii.eqb_refl.
  - rewrite StrFacts.app_cons. simpl. destruct (Ascii.eqb a sep).
    + exists ("" :: l). split; [done|]. by rewrite IH.
    + rewrite IH. destruct l as [|h t]; [done|].
      by exists (String a h :: t).
Qed.

Lemma last_split_app sep s x :
  last (split sep (s +:+ String sep x)) = last (split sep x).
Proof.
  destruct (split_app_sep sep s x) as (l & _ & ->).
  rewrite last_app. destruct (last (split sep x)) eqn:E; [done|].
  apply last_None in E. by apply StrFacts.split_nonempty in E.
Qed.

Lemma join_cons_cons sep x y l :
  join sep (x :: y :: l) = x +:+ sep +:+ join sep (y :: l).
Proof. reflexivity. Qed.

(** [sep.join(s.split(sep))] gives [s] back. *)
Lemma join_split sep s : join (String sep "") (split sep s) = s.
Proof.
  induction s as [|a s IH]; [done|]. simpl.
  destruct (Ascii.eqb_spec a sep) as [->|Hne].
  - destruct (split sep s) as [|h t] eqn:E;
      [by apply StrFacts.split_nonempty in E|].
    rewrite join_cons_cons, IH. done.
  - destruct (split sep s) as [|h t] eqn:E;
      [by apply StrFacts.split_nonempty in E|].
    destruct t as [|h' t].
    + simpl in *. by rewrite IH.
    + rewrite join_cons_cons in *. rewrite StrFacts.app_cons. by rewrite IH.
Qed.

Lemma join_snoc sep l x :
  l ≠ [] → join sep (l ++ [x]) = join sep l +:+ sep +:+ x.
Proof.
  induction l as [|y l IH]; [done|]. intros _.
  destruct l as [|z l]; [done|].
  change ((y :: z :: l) ++ [x]) with (y :: z :: (l ++ [x])).
  rewrite !join_cons_cons.
  change (z :: l ++ [x]) with ((z :: l) ++ [x]).
  rewrite IH by done. by rewrite !app_assoc.
Qed.

Lemma lstrip_suffix chars s : ∃ r, s = r +:+ lstrip chars s.
Proof.
  induction s as [|a s [r IH]]; [by exists ""|]. simpl.
  case_bool_decide.
  - exists (String a r). rewrite StrFacts.app_cons. by rewrite <- IH.
  - by exists "".
Qed.

Lemma lstrip_head chars s a t : lstrip chars s = String a t → a ∉ chars.
Proof.
  induction s as [|b s IH]; simpl; [done|].
  case_bool_decide; [done|]. by intros [= <- _].
Qed.

Lemma endswith_cons a r c :
  r ≠ "" → endswith (String a r) (String c "") = endswith r (String c "").
Proof.
  intros Hr. cbn [endswith].
  destruct (String.eqb_spec (String a r) (String c "")) as [[= _ ->]|_]; done.
Qed.

Lemma rstrip_last chars s c :
  endswith (rstrip chars s) (String c "") = true → c ∉ chars.
Proof.
  induction s as [|a s IH]; cbn [rstrip]; [done|].
  destruct (String.eqb_spec (rstrip chars s) "") as [Hr|Hr]; cbn [andb].
  - case_bool_decide as Ha; [done|]. rewrite Hr. cbn [endswith].
    destruct (String.eqb_spec (String a "") (String c "")) as [[= ->]|_];
      [done|].
    by destruct (String.eqb_spec "" (String c "")).
  - by rewrite endswith_cons.
Qed.

Lemma endswith_suffix r s p : endswith s p = true → endswith (r +:+ s) p = true.
Proof.
  intros [x ->]%StrFacts.endswith_spec. apply StrFacts.endswith_spec.
  exists (r +:+ x). by rewrite app_assoc.
Qed.

(** What [line.rstrip("/").lstrip("*/")] can be. *)
Lemma strip_slashes line :
  let name := lstrip ["*"; "/"]%char (rstrip ["/"]%char line) in
  startswith name "*" = false ∧ startswith name "/" = false ∧
  endswith name "/" = false.
Proof.
  intros name. split; [|split].
  - destruct name as [|a t] eqn:E; [done|]. apply lstrip_head in E.
    cbn [startswith]. destruct (Ascii.eqb_spec "*" a) as [<-|]; [|done].
    destruct E. left.
  - destruct name as [|a t] eqn:E; [done|]. apply lstrip_head in E.
    cbn [startswith]. destruct (Ascii.eqb_spec "/" a) as [<-|]; [|done].
    destruct E. right. left.
  - destruct (endswith name "/") eqn:E; [|done]. exfalso.
    destruct (lstrip_suffix ["*"; "/"]%char (rstrip ["/"]%char line))
      as [r Hr].
    apply (endswith_suffix r) in E. fold name in Hr. rewrite <- Hr in E.
    apply rstrip_last in E. apply E. left.
Qed.

End TextFacts.

(** The final segment of a qualified name. *)
Lemma last_segment_app s x : last_segment (s +:+ "." +:+ x) = last_segment x.
Proof.
  unfold last_segment. change ("." +:+ x) with (String dot x).
  by rewrite TextFacts.last_split_app.
Qed.

Lemma last_segment_plain x : Str.free_of dot x = true → last_segment x = x.
Proof. intros Hx. unfold last_segment. by rewrite StrFacts.split_free. Qed.

(** For a name [x] without dots, the strings that end in [.x] are those
    with final segment [x], [x] itself apart. *)
Lemma endswith_last_segment k x :
  Str.free_of dot x = true →
  Str.endswith k ("." +:+ x) = true ↔ last_segment k = x ∧ k ≠ x.
Proof.
  intros Hx. split.
  - intros [r ->]%StrFacts.endswith_spec. split.
    + by rewrite last_segment_app, last_segment_plain.
    + intros Heq%(f_equal String.length).
      rewrite !StrFacts.length_app in Heq. simpl in Heq. lia.
  - intros [Hlast Hne]. unfold last_segment in Hlast.
    destruct (last (Str.split dot k)) as [y|] eqn:E.
    2:{ apply last_None in E. by apply StrFacts.split_nonempty in E. }
    simpl in Hlast. subst y. apply last_Some in E as [l El].
    assert (k = Str.join "." (l ++ [x])) as Hk.
    { rewrite <- El. symmetry. apply (TextFacts.join_split dot). }
    destruct l as [|h l]; [by destruct Hne|].
    rewrite TextFacts.join_snoc in Hk by done. rewrite Hk.
    apply StrFacts.endswith_app.
Qed.

(** ** The reverse index and the results of the resolver *)

Section resolved_names.

Implicit Types (all_functions : registry) (symbol_imports : symbol_tables).
Implicit Types (module_imports : alias_tables).

Lemma reverse_index_is_Some all_functions short :
  is_Some (reverse_index all_functions !! short) ↔
  ∃ q, q ∈ dom all_functions ∧ last_segment q = short.
Proof.
  unfold reverse_index. revert short.
  apply (map_fold_weak_ind
           (λ (r : gmap string (gset string)) (m : registry),
              ∀ short, is_Some (r !! short) ↔
                       ∃ q, q ∈ dom m ∧ last_segment q = short)).
  - intros short. rewrite lookup_empty, dom_empty_L. split.
    + by intros [? ?].
    + by intros (q & ?%not_elem_of_empty & _).
  - intros i x m r Hi IH short. rewrite dom_insert_L.
    destruct (decide (last_segment i = short)) as [<-|Hne].
    + rewrite lookup_insert_eq. split; [|done]. intros _. exists i.
      split; [|done]. apply elem_of_union. left. by apply elem_of_singleton.
    + rewrite lookup_insert_ne by done. rewrite IH. split.
      * intros (q & Hq & Hs). exists q. split; [|done].
        apply elem_of_union. by right.
      * intros (q & Hq & Hs). exists q. split; [|done].
        apply elem_of_union in Hq as [Hq|Hq]; [|done].
        apply elem_of_singleton in Hq. by subst q.
Qed.

Lemma reverse_index_Some all_functions short names :
  reverse_index all_functions !! short = Some names →
  names ≠ ∅ ∧
  ∀ q, q ∈ names ↔ q ∈ dom all_functions ∧ last_segment q = short.
Proof.
  intros E.
  assert (∀ q, q ∈ names ↔ q ∈ dom all_functions ∧ last_segment q = short)
    as Hnames.
  { intros q. rewrite <- elem_of_reverse_index. by rewrite E. }
  split; [|done].
  destruct (proj1 (reverse_index_is_Some all_functions short)) as (q & Hq);
    [by rewrite E|].
  intros ->. apply Hnames in Hq. by apply not_elem_of_empty in Hq.
Qed.

Lemma reverse_index_None all_functions short :
  reverse_index all_functions !! short = None ↔
  ∀ q, q ∈ dom all_functions → last_segment q ≠ short.
Proof.
  rewrite eq_None_not_Some, reverse_index_is_Some. split.
  - intros Hno q Hq Hs. apply Hno. eauto.
  - intros Hno (q & Hq & Hs). by apply (Hno q).
Qed.

Lemma local_scope_segment name current_module all_functions q :
  q ∈ local_scope name current_module all_functions →
  q ∈ dom all_functions ∧ last_segment q = name.
Proof. unfold local_scope. rewrite elem_of_filter. tauto. Qed.

Lemma symbol_scope_subseteq from_mod orig_name all_functions :
  symbol_scope from_mod orig_name all_functions ⊆ dom all_functions.
Proof. unfold symbol_scope. intros q. rewrite elem_of_filter. tauto. Qed.

Lemma resolve_Some name current_module module_imports symbol_imports
    all_functions names :
  resolve_function_name name current_module module_imports symbol_imports
    all_functions (reverse_index all_functions) = Some names →
  names ≠ ∅ ∧ names ⊆ dom all_functions.
Proof.
  rewrite resolve_unfold. case_bool_decide as Hlocal.
  { intros [= <-]. split; [done|]. intros q Hq.
    by apply local_scope_segment in Hq as [? _]. }
  assert (reverse_index all_functions !! name = Some names →
          names ≠ ∅ ∧ names ⊆ dom all_functions) as Hglobal.
  { intros [Hne Hnames]%reverse_index_Some. split; [done|].
    intros q Hq. by apply Hnames in Hq as [? _]. }
  destruct (default ∅ (symbol_imports !! current_module) !! name)
    as [[from_mod orig_name]|]; [|done].
  case_bool_decide as Hsymbol; [|done].
  intros [= <-]. split; [done|]. apply symbol_scope_subseteq.
Qed.

Lemma kept_registered all_functions names :
  names ⊆ dom all_functions → kept all_functions (Some names) = names.
Proof.
  intros Hsub. unfold kept. apply set_eq. intros q.
  rewrite elem_of_filter. simpl. split; [tauto|]. intros Hq. split; [|done].
  by apply Hsub.
Qed.

End resolved_names.

(** X1. The reverse index has a key for a final segment exactly when some
    registered qualified name ends in that segment, and the value under
    the key is the non-empty set of all registered names with that final
    segment. *)
Theorem reverse_index_groups (all_functions : registry) short :
  match reverse_index all_functions !! short with
  | Some names =>
      names ≠ ∅ ∧
      ∀ q, q ∈ names ↔ q ∈ dom all_functions ∧ last_segment q = short
  | None => ∀ q, q ∈ dom all_functions → last_segment q ≠ short
  end.
Proof.
  destruct (reverse_index all_functions !! short) as [names|] eqn:E.
  - by apply reverse_index_Some.
  - by apply reverse_index_None.
Qed.

Lemma reverse_index_groups_witness :
  let c := Project.collect two_helpers ["/r/a.py"; "/r/b.py"] "/r" in
  reverse_index (all_functions c) !! "helper"
  = Some {[ "a.helper"; "b.helper" ]} ∧
  ∀ q, q ∈ dom (all_functions c) → last_segment q ≠ "print".
Proof.
  intros c. split; [evaluate|].
  generalize (reverse_index_groups (all_functions c) "print").
  assert (reverse_index (all_functions c) !! "print" = None) as -> by evaluate.
  done.
Defined.

(** X2. With the reverse index of the registry, a set that the resolver
    returns is never empty and holds registered names only, so that the
    builder's test and filter [r in all_functions] drop nothing: the whole
    set is added to the calls. *)
Theorem resolved_names_registered name current_module module_imports
    symbol_imports (all_functions : registry) names called :
  resolve_function_name name current_module module_imports symbol_imports
    all_functions (reverse_index all_functions) = Some names →
  names ≠ ∅ ∧ names ⊆ dom all_functions ∧
  keep_resolved all_functions (Some names) called = called ∪ names.
Proof.
  intros [Hne Hsub]%resolve_Some. split; [done|]. split; [done|].
  by rewrite keep_resolved_union, kept_registered.
Qed.

Lemma resolved_names_registered_witness :
  let c := Project.collect two_helpers ["/r/a.py"; "/r/b.py"] "/r" in
  ({[ "a.main" ]} : gset string) ⊆ dom (all_functions c) ∧
  keep_resolved (all_functions c) (Some {[ "a.main" ]}) ∅ = ∅ ∪ {[ "a.main" ]}.
Proof.
  intros c.
  destruct (resolved_names_registered "main" "b" (module_imports c)
              (symbol_imports c) (all_functions c) {[ "a.main" ]} ∅)
    as (_ & Hsub & Hkeep); [evaluate|].
  by split.
Defined.

(** X3. A name that the resolver leaves unresolved is the final segment
    of no registered qualified name.  Conversely such a name is left
    unresolved unless the calling module imports it with [from ... import]:
    an imported name may stand for a definition of another name. *)
Theorem unresolved_names name current_module module_imports symbol_imports
    (all_functions : registry) :
  (resolve_function_name name current_module module_imports symbol_imports
     all_functions (reverse_index all_functions) = None →
   ∀ q, q ∈ dom all_functions → last_segment q ≠ name) ∧
  ((∀ q, q ∈ dom all_functions → last_segment q ≠ name) →
   default ∅ (symbol_imports !! current_module) !! name = None →
   resolve_function_name name current_module module_imports symbol_imports
     all_functions (reverse_index all_functions) = None).
Proof.
  rewrite resolve_unfold. split.
  - case_bool_decide as Hlocal; [done|].
    destruct (default ∅ (symbol_imports !! current_module) !! name)
      as [[from_mod orig_name]|].
    + case_bool_decide; [done|]. apply reverse_index_None.
    + apply reverse_index_None.
  - intros Hno ->. rewrite bool_decide_false; [by apply reverse_index_None|].
    intros Hlocal. apply Hlocal. apply set_eq. intros q. split.
    + intros [Hq Hs]%local_scope_segment. by destruct (Hno q).
    + by intros ?%not_elem_of_empty.
Qed.

Lemma unresolved_names_witness :
  let c := Project.collect two_helpers ["/r/a.py"; "/r/b.py"] "/r" in
  last_segment "a.main" ≠ "print" ∧
  resolve_function_name "len" "b" (module_imports c) (symbol_imports c)
    (all_functions c) (reverse_index (all_functions c)) = None.
Proof.
  intros c. split.
  - apply (proj1 (unresolved_names "print" "a" (module_imports c)
                    (symbol_imports c) (all_functions c))); evaluate.
  - apply (proj2 (unresolved_names "len" "b" (module_imports c)
                    (symbol_imports c) (all_functions c))); [|evaluate].
    assert (dom (all_functions c) = {[ "a.helper"; "a.main"; "b.helper" ]})
      as -> by evaluate.
    intros q. rewrite !elem_of_union, !elem_of_singleton.
    intros [[->| ->]| ->]; by vm_compute.
Defined.

(** X4. When no registered name of the calling module has the bare name
    as its final segment, and the module either does not import the name
    with [from ... import] or imports it from a module (a library, say)
    that matches no registered name, the resolver returns the registered
    names of the whole project with that final segment. *)
Theorem global_fallback name current_module module_imports symbol_imports
    (all_functions : registry) :
  local_scope name current_module all_functions = ∅ →
  (∀ from_mod orig_name,
     default ∅ (symbol_imports !! current_module) !! name
     = Some (from_mod, orig_name) →
     symbol_scope from_mod orig_name all_functions = ∅) →
  ∀ q, q ∈ default ∅ (resolve_function_name name current_module
                        module_imports symbol_imports all_functions
                        (reverse_index all_functions))
       ↔ q ∈ dom all_functions ∧ last_segment q = name.
Proof.
  intros Hlocal Himport q. rewrite resolve_unfold, Hlocal.
  rewrite bool_decide_false by (by intros []).
  destruct (default ∅ (symbol_imports !! current_module) !! name)
    as [[from_mod orig_name]|].
  - rewrite (Himport from_mod orig_name) by done.
    rewrite bool_decide_false by (by intros []).
    apply elem_of_reverse_index.
  - apply elem_of_reverse_index.
Qed.

Lemma global_fallback_witness :
  let c := Project.collect external_project ["/r/a.py"; "/r/b.py"] "/r" in
  default ∅ (symbol_imports c !! "a") !! "dump" = Some (Some "json", "dump") ∧
  "b.dump" ∈ default ∅ (resolve_function_name "dump" "a" (module_imports c)
                          (symbol_imports c) (all_functions c)
                          (reverse_index (all_functions c))) ∧
  Project.calls_of external_project ["/r/a.py"; "/r/b.py"] "/r" "a.save"
  = Some ["b.dump"].
Proof.
  intros c. split; [evaluate|]. split; [|evaluate].
  apply (global_fallback "dump" "a" (module_imports c) (symbol_imports c)
           (all_functions c)).
  - evaluate.
  - intros from_mod orig_name. vm_compute. intros [= <- <-]. reflexivity.
  - split; [|evaluate]. apply (bool_decide_unpack _). by vm_compute.
Defined.

(** X5. A name imported by [from . import x], whose module is [None],
    is matched against the registry by its final segment alone: when the
    calling module has no definition of the local name and some
    registered name other than [x] has the final segment [x], the
    resolver returns all such names, in whatever module they are. *)
Theorem relative_import_resolution name current_module module_imports
    symbol_imports (all_functions : registry) orig_name :
  local_scope name current_module all_functions = ∅ →
  default ∅ (symbol_imports !! current_module) !! name
  = Some (None, orig_name) →
  Str.free_of dot orig_name = true →
  let candidates :=
    filter (λ q, last_segment q = orig_name ∧ q ≠ orig_name)
           (dom all_functions) in
  candidates ≠ ∅ →
  resolve_function_name name current_module module_imports symbol_imports
    all_functions (reverse_index all_functions) = Some candidates.
Proof.
  intros Hlocal Himport Hfree candidates Hne.
  assert (symbol_scope None orig_name all_functions = candidates) as Hscope.
  { apply set_eq. intros q. unfold symbol_scope, candidates.
    rewrite !elem_of_filter. cbn [Str.or_else Str.startswith].
    rewrite (endswith_last_segment q orig_name Hfree). tauto. }
  rewrite resolve_unfold, Hlocal, Himport, Hscope.
  rewrite bool_decide_false by (by intros []).
  by rewrite bool_decide_true.
Qed.

Lemma relative_import_resolution_witness :
  let files := ["/r/pkg/a.py"; "/r/pkg/b.py"; "/r/other.py"] in
  let c := Project.collect relative_project files "/r" in
  resolve_function_name "run" "pkg.a" (module_imports c) (symbol_imports c)
    (all_functions c) (reverse_index (all_functions c))
  = Some {[ "other.run"; "pkg.b.run" ]} ∧
  Project.calls_of relative_project files "/r" "pkg.a.f"
  = Some ["other.run"; "pkg.b.run"].
Proof.
  intros files c. split; [|evaluate].
  rewrite (relative_import_resolution "run" "pkg.a" (module_imports c)
             (symbol_imports c) (all_functions c) "run").
  - evaluate.
  - evaluate.
  - evaluate.
  - evaluate.
  - by vm_compute.
Defined.

(** X6. The calls of a definition do not depend on the order in which
    [ast.walk] yields the nodes below it, nor on how often it yields
    them: two sequences with the same members give the same set. *)
Theorem call_set_order_free module module_imports symbol_imports
    (all_functions : registry) symbol_to_func nodes nodes' called :
  (∀ n, n ∈ nodes ↔ n ∈ nodes') →
  foldl (visit_call module module_imports symbol_imports all_functions
           symbol_to_func) called nodes
  = foldl (visit_call module module_imports symbol_imports all_functions
             symbol_to_func) called nodes'.
Proof.
  intros Hsame. apply set_eq. intros x. rewrite !foldl_visit_call.
  by setoid_rewrite Hsame.
Qed.

Lemma call_set_order_free_witness :
  let c := Project.collect nested_project ["/r/m.py"] "/r" in
  let visit := visit_call "m" (module_imports c) (symbol_imports c)
                 (all_functions c) (reverse_index (all_functions c)) in
  foldl visit ∅ (walk (as_node outer_def))
  = foldl visit ∅ (reverse (walk (as_node outer_def))).
Proof.
  intros c visit.
  apply (call_set_order_free "m" (module_imports c) (symbol_imports c)
           (all_functions c) (reverse_index (all_functions c))).
  intros n. by rewrite elem_of_reverse.
Defined.

(** ** Calls within a file *)

Section same_file.

Variable relpath : string → string → string.
Variable parse_file : string → string + list node.

(** A registered name starts with the module name of its file and a dot,
    and ends in the name of the definition. *)
Lemma origin_key_shape root file_path q file_path' k d class_name :
  origin relpath parse_file root file_path q (file_path', (k, d), class_name) →
  Str.free_of dot (def_name d) = true →
  Str.startswith q (module_name relpath file_path root +:+ ".") = true ∧
  last_segment q = def_name d.
Proof.
  intros Horigin Hfree. inversion Horigin; subst.
  - split.
    + rewrite <- (TextFacts.app_assoc _ "." _). apply StrFacts.startswith_app.
    + by rewrite last_segment_app, last_segment_plain.
  - split.
    + rewrite <- (TextFacts.app_assoc _ "." _). apply StrFacts.startswith_app.
    + by rewrite !last_segment_app, last_segment_plain.
Qed.

End same_file.

(** X7. A call by bare name or through an attribute of a name, met below
    a registered definition of a file, yields an edge to every registered
    function and method of the same file that has the called name, the
    calling definition itself included when it calls itself. *)
Theorem same_file_call relpath parse_file unparse py_files root file_path
    q f class_name q' k d class_name' func call_args keywords :
  file_path ∈ py_files →
  let c := collect_functions_and_imports relpath parse_file py_files root in
  all_functions c !! q = Some (file_path, f, class_name) →
  origin relpath parse_file root file_path q' (file_path, (k, d), class_name') →
  Str.free_of dot (def_name d) = true → def_name d ≠ "" →
  Call func call_args keywords ∈ walk (as_node f) →
  callee_name func = Some (def_name d) →
  ∃ details,
    analyse relpath parse_file unparse py_files root !! q = Some details ∧
    q' ∈ d_calls details.
Proof.
  intros Hfile c Hq Horigin Hfree Hname Hcall Hcallee.
  assert (q' ∈ dom (all_functions c)) as Hq' by by eapply registry_key.
  destruct (origin_key_shape _ _ _ _ _ _ _ _ _ Horigin Hfree) as [Hpre Hlast].
  eexists. split.
  { unfold analyse. fold c. rewrite lookup_build, Hq. reflexivity. }
  apply elem_of_calls. exists (Call func call_args keywords). split; [done|].
  cbn [contribution]. rewrite Hcallee.
  apply String.eqb_neq in Hname. rewrite Hname.
  assert (q' ∈ local_scope (def_name d) (module_name relpath file_path root)
                 (all_functions c)) as Hlocal.
  { apply elem_of_filter. auto. }
  rewrite resolve_unfold, bool_decide_true.
  - unfold kept. apply elem_of_filter. auto.
  - intros Hempty. rewrite Hempty in Hlocal. by apply not_elem_of_empty in Hlocal.
Qed.

Lemma same_file_call_witness :
  ∃ details,
    Project.run recursive_project ["/r/m.py"] "/r" !! "m.fact" = Some details ∧
    "m.fact" ∈ d_calls details.
Proof.
  apply (same_file_call Project.relpath (Project.parse_in recursive_project)
           Project.unparse ["/r/m.py"] "/r" "/r/m.py" "m.fact" fact_def None
           "m.fact" FunctionDef fact_def.2 None (Name "fact") [] []).
  - by repeat constructor.
  - evaluate.
  - refine (origin_function Project.relpath
              (Project.parse_in recursive_project) "/r" "/r/m.py"
              _ FunctionDef fact_def.2 eq_refl _).
    by repeat constructor.
  - reflexivity.
  - done.
  - vm_compute. by repeat constructor.
  - reflexivity.
Defined.

(** ** The content of the import tables *)

Section import_content.

Variable relpath : string → string → string.
Variable parse_file : string → string + list node.

Lemma add_aliases_eq names t :
  foldl add_alias t names = assign (map alias_assignment names) t.
Proof.
  revert t. induction names as [|a names IH]; intros t; [done|]. apply IH.
Qed.

Lemma node_aliases_eq body t :
  foldl node_aliases t body = assign (import_assignments body) t.
Proof.
  revert t. induction body as [|n body IH]; intros t; [done|].
  cbn [foldl]. rewrite IH. unfold import_assignments. cbn [flat_map].
  rewrite assign_app. f_equal. destruct n; try done. apply add_aliases_eq.
Qed.

Lemma add_symbols_eq mod_ names t :
  foldl (add_symbol mod_) t names
  = assign (map (symbol_assignment mod_) names) t.
Proof.
  revert t. induction names as [|a names IH]; intros t; [done|]. apply IH.
Qed.

Lemma node_symbols_eq body t :
  foldl node_symbols t body = assign (symbol_assignments body) t.
Proof.
  revert t. induction body as [|n body IH]; intros t; [done|].
  cbn [foldl]. rewrite IH. unfold symbol_assignments. cbn [flat_map].
  rewrite assign_app. f_equal. destruct n; try done. apply add_symbols_eq.
Qed.

(** The tables of the last file of a module that parses. *)
Lemma tables_of_last_file before file_path after root body :
  parse_file file_path = inr body →
  (∀ g, g ∈ after →
        module_name relpath g root ≠ module_name relpath file_path root) →
  let c := collect_functions_and_imports relpath parse_file
             (before ++ file_path :: after) root in
  module_imports c !! module_name relpath file_path root
  = Some (assign (import_assignments body) ∅) ∧
  symbol_imports c !! module_name relpath file_path root
  = Some (assign (symbol_assignments body) ∅).
Proof.
  intros Hbody Hafter c. subst c. rewrite collect_eq. simpl. split.
  - apply (table_last relpath). intros g [->|Hg]%elem_of_cons Hm.
    + unfold file_aliases. rewrite Hbody. apply node_aliases_eq.
    + by destruct (Hafter g).
  - apply (table_last relpath). intros g [->|Hg]%elem_of_cons Hm.
    + unfold file_symbols. rewrite Hbody. apply node_symbols_eq.
    + by destruct (Hafter g).
Qed.

End import_content.

(** X8. For the last file of a module in the input, when it parses: the
    two import tables of the module hold what the import statements at
    the top level of the file assign, and nothing else; of several
    imports that bind the same local name the last one is recorded. *)
Theorem import_tables_content relpath parse_file before file_path after
    root body :
  parse_file file_path = inr body →
  (∀ g, g ∈ after →
        module_name relpath g root ≠ module_name relpath file_path root) →
  let c := collect_functions_and_imports relpath parse_file
             (before ++ file_path :: after) root in
  let module := module_name relpath file_path root in
  ∃ aliases symbols,
    module_imports c !! module = Some aliases ∧
    symbol_imports c !! module = Some symbols ∧
    (∀ local real,
       aliases !! local = Some real → (local, real) ∈ import_assignments body) ∧
    (∀ l1 local real l2,
       import_assignments body = l1 ++ (local, real) :: l2 → local ∉ l2.*1 →
       aliases !! local = Some real) ∧
    (∀ local source,
       symbols !! local = Some source →
       (local, source) ∈ symbol_assignments body) ∧
    (∀ l1 local source l2,
       symbol_assignments body = l1 ++ (local, source) :: l2 → local ∉ l2.*1 →
       symbols !! local = Some source).
Proof.
  intros Hbody Hafter c module.
  destruct (tables_of_last_file relpath parse_file before file_path after root
              body Hbody Hafter) as [Haliases Hsymbols].
  exists (assign (import_assignments body) ∅),
         (assign (symbol_assignments body) ∅).
  split; [done|]. split; [done|]. repeat split.
  - by intros local real [?|?]%assign_lookup_Some.
  - intros l1 local real l2 -> Hlast. by apply assign_lookup_last.
  - by intros local source [?|?]%assign_lookup_Some.
  - intros l1 local source l2 -> Hlast. by apply assign_lookup_last.
Qed.

Lemma import_tables_content_witness :
  let c := Project.collect imports_project ["/r/m.py"] "/r" in
  ∃ aliases symbols,
    module_imports c !! "m" = Some aliases ∧
    symbol_imports c !! "m" = Some symbols ∧
    aliases !! "np" = Some "array" ∧ aliases !! "sys" = None ∧
    symbols !! "f" = Some (Some "b", "f").
Proof.
  intros c.
  destruct (import_tables_content Project.relpath
              (Project.parse_in imports_project) [] "/r/m.py" [] "/r"
              imports_body)
    as (aliases & symbols & Ha & Hs & Hin & Hlast & _ & Hlast').
  - reflexivity.
  - intros g Hg. inversion Hg.
  - exists aliases, symbols. split; [done|]. split; [done|]. split; [|split].
    + apply (Hlast [("np", "numpy"); ("os", "os")] "np" "array" []);
        [reflexivity | by intros ?%elem_of_nil].
    + destruct (aliases !! "sys") as [real|] eqn:E; [|done].
      apply Hin in E. exfalso.
      change (import_assignments imports_body)
        with [("np", "numpy"); ("os", "os"); ("np", "array")] in E.
      rewrite !elem_of_cons in E.
      destruct E as [[=]|[[=]|[[=]|E]]]. inversion E.
    + apply (Hlast' [("f", (Some "a", "f"))] "f" (Some "b", "f") []);
        [reflexivity | by intros ?%elem_of_nil].
Defined.

(** ** The order of the report *)

Section report_order.

Context {V : Type}.

Lemma key_le_total : Total (λ x y : string * V, String.le x.1 y.1).
Proof. intros x y. apply (total String.le). Qed.

Lemma key_le_transitive : Transitive (λ x y : string * V, String.le x.1 y.1).
Proof. intros x y z. apply (transitivity (R:=String.le)). Qed.

Lemma StronglySorted_keys (l : list (string * V)) :
  StronglySorted (λ x y, String.le x.1 y.1) l → StronglySorted String.le l.*1.
Proof.
  induction 1 as [|x l Hl IH Hx]; constructor; [done|]. by apply Forall_fmap.
Qed.

Lemma sorted_by_key (m : gmap string V) :
  let items := merge_sort (λ x y, String.le x.1 y.1) (map_to_list m) in
  StronglySorted String.le items.*1 ∧ NoDup items.*1 ∧
  ∀ q v, (q, v) ∈ items ↔ m !! q = Some v.
Proof.
  intros items. split; [|split].
  - apply StronglySorted_keys.
    apply (@StronglySorted_merge_sort _ _ _ key_le_transitive key_le_total).
  - unfold items. rewrite merge_sort_Permutation. apply NoDup_fst_map_to_list.
  - intros q v. unfold items. rewrite merge_sort_Permutation.
    apply elem_of_map_to_list.
Qed.

End report_order.

Lemma sorted_names (names : gset string) :
  let calls := merge_sort String.le (elements names) in
  StronglySorted String.le calls ∧ NoDup calls ∧ ∀ x, x ∈ calls ↔ x ∈ names.
Proof.
  intros calls. split; [|split].
  - apply StronglySorted_merge_sort; apply _.
  - unfold calls. rewrite merge_sort_Permutation. apply NoDup_elements.
  - intros x. unfold calls. rewrite merge_sort_Permutation.
    apply elem_of_elements.
Qed.

(** X9. The report has one section per registered qualified name, and
    the sections come in ascending order of these names; each section
    shows the details that the builder stored under the name. *)
Theorem report_order relpath unparse py_files root (all_functions : registry)
    module_imports symbol_imports :
  let function_details :=
    build_function_call_graph relpath unparse py_files root all_functions
      module_imports symbol_imports in
  let items := sorted_items function_details in
  StronglySorted String.le items.*1 ∧ NoDup items.*1 ∧
  (∀ q, q ∈ items.*1 ↔ q ∈ dom all_functions) ∧
  (∀ q details, (q, details) ∈ items ↔ function_details !! q = Some details) ∧
  write_markdown root function_details all_functions
  = Str.join nl ([ "# Project-wide Function Mapping" +:+ nl;
                   "## Functions (with cross-file call analysis)" +:+ nl ] ++
                 flat_map render_definition items).
Proof.
  intros function_details items.
  destruct (sorted_by_key function_details) as (Hsorted & Hnodup & Hitems).
  split; [done|]. split; [done|]. split; [|by split].
  intros q. unfold items, sorted_items. rewrite merge_sort_Permutation.
  rewrite elem_of_map_to_list_keys. unfold function_details.
  unfold build_function_call_graph. by rewrite dom_fmap_L.
Qed.

(** X10. The second line of a section lists the calls of the definition
    in ascending order, each name once, between backquotes and separated
    by a comma and a space; it reads [- Calls: None] exactly when the
    definition has no calls. *)
Theorem calls_line qname details :
  ∃ calls,
    StronglySorted String.le calls ∧ NoDup calls ∧
    (∀ x, x ∈ calls ↔ x ∈ d_calls details) ∧
    render_definition (qname, details) !! 1
    = Some (match calls with
            | [] => "- Calls: None"
            | _ => "- Calls: `" +:+ Str.join ", " calls +:+ "`"
            end).
Proof.
  exists (merge_sort String.le (elements (d_calls details))).
  destruct (sorted_names (d_calls details)) as (Hsorted & Hnodup & Hcalls).
  split; [done|]. split; [done|]. split; [done|].
  cbn [render_definition lookup list_lookup]. f_equal.
  case_bool_decide as Hne.
  - destruct (merge_sort String.le (elements (d_calls details))) as [|x l] eqn:E;
      [|done].
    destruct Hne. apply set_eq. intros x. rewrite <- Hcalls.
    split; [by intros ?%elem_of_nil | by intros ?%not_elem_of_empty].
  - destruct (merge_sort String.le (elements (d_calls details))) as [|x l] eqn:E;
      [done|].
    assert (x ∈ d_calls details) as Hx by (apply Hcalls; left).
    rewrite Hne in Hx. by apply not_elem_of_empty in Hx.
Qed.

(** ** File discovery *)

Section discovery.

Implicit Types (ignore_dirs : gset string) (t : dir_tree).

(** Induction on a directory tree. *)
Lemma dir_tree_ind (P : dir_tree → Prop) :
  (∀ dirnames filenames,
     Forall (λ d, P d.2) dirnames → P (Dir dirnames filenames)) →
  ∀ t, P t.
Proof.
  intros Hdir t. remember (tree_size t) as n eqn:Hn. revert t Hn.
  induction n as [n IH] using lt_wf_ind. intros [dirnames filenames] ->.
  apply Hdir.
  apply Forall_forall. intros d Hd. apply (IH (tree_size d.2)); [|done].
  cbn [tree_size]. apply Nat.lt_succ_r.
  apply list_elem_of_split in Hd as (l1 & l2 & ->).
  rewrite map_app, list_sum_app. simpl. lia.
Qed.

Lemma walk_files_unfold ignore_dirs dirpath dirnames filenames p :
  p ∈ walk_files ignore_dirs dirpath (Dir dirnames filenames) ↔
  (∃ f, f ∈ filenames ∧ Str.endswith f ".py" = true ∧ p = path_join dirpath f) ∨
  (∃ d, d ∈ dirnames ∧ (d.1 ∉ ignore_dirs) ∧
        p ∈ walk_files ignore_dirs (path_join dirpath d.1) d.2).
Proof.
  cbn [walk_files]. rewrite elem_of_app, list_elem_of_fmap, elem_of_flat_map.
  split.
  - intros [(f & -> & [Hpy Hf]%list_elem_of_filter)|(d & Hd & Hp)].
    + left. eauto.
    + right. exists d. split; [done|].
      case_bool_decide; [by apply elem_of_nil in Hp|done].
  - intros [(f & Hf & Hpy & ->)|(d & Hd & Hkeep & Hp)].
    + left. exists f. split; [done|]. by apply list_elem_of_filter.
    + right. exists d. split; [done|]. by rewrite bool_decide_false.
Qed.

Lemma elem_of_walk_files ignore_dirs t dirpath p :
  p ∈ walk_files ignore_dirs dirpath t ↔
  ∃ segs f, file_at t segs f ∧ Str.endswith f ".py" = true ∧
            Forall (λ s, s ∉ ignore_dirs) segs ∧
            p = path_below dirpath (segs ++ [f]).
Proof.
  revert dirpath. induction t as [dirnames filenames IH] using dir_tree_ind.
  intros dirpath. rewrite walk_files_unfold. split.
  - intros [(f & Hf & Hpy & ->)|(d & Hd & Hkeep & Hp)].
    + exists [], f. split; [by constructor|]. by repeat split.
    + rewrite Forall_forall in IH. apply (IH d Hd) in Hp
        as (segs & f & Hat & Hpy & Hsegs & ->).
      exists (d.1 :: segs), f. split.
      { destruct d as [name sub]. by econstructor. }
      split; [done|]. split; [by constructor|done].
  - intros (segs & f & Hat & Hpy & Hsegs & ->).
    inversion Hat as [? ? ? Hf|? ? name sub segs' ? Hd Hsub]; subst.
    + left. by exists f.
    + right. exists (name, sub). split; [done|].
      apply Forall_cons in Hsegs as [Hname Hsegs]. split; [done|].
      rewrite Forall_forall in IH. apply (IH (name, sub) Hd).
      by exists segs', f.
Qed.

(** Names that no directory bears prune nothing. *)
Lemma walk_files_unused ignore_dirs (unused : gset string) t dirpath :
  (∀ segs f name, file_at t segs f → name ∈ segs → name ∉ unused) →
  walk_files (ignore_dirs ∪ unused) dirpath t = walk_files ignore_dirs dirpath t.
Proof.
  revert dirpath. induction t as [dirnames filenames IH] using dir_tree_ind.
  intros dirpath Hunused. cbn [walk_files]. f_equal.
  rewrite Forall_forall in IH.
  assert (∀ d, d ∈ dirnames →
            (if bool_decide (d.1 ∈ ignore_dirs ∪ unused) then []
             else walk_files (ignore_dirs ∪ unused) (path_join dirpath d.1) d.2)
            = (if bool_decide (d.1 ∈ ignore_dirs) then []
               else walk_files ignore_dirs (path_join dirpath d.1) d.2)) as Hsame.
  { intros [name sub] Hd. cbn [fst snd].
    assert (walk_files (ignore_dirs ∪ unused) (path_join dirpath name) sub
            = walk_files ignore_dirs (path_join dirpath name) sub) as Hsub.
    { apply (IH (name, sub) Hd). intros segs f x Hat Hx.
      apply (Hunused (name :: segs) f); [by econstructor|by right]. }
    destruct (decide (name ∈ ignore_dirs)) as [Hin|Hout].
    - rewrite !bool_decide_true; [done..|]. apply elem_of_union. by left.
    - destruct (decide (name ∈ unused)) as [Hin'|Hout'].
      + rewrite bool_decide_true by (apply elem_of_union; by right).
        rewrite bool_decide_false by done.
        destruct (walk_files ignore_dirs (path_join dirpath name) sub)
          as [|p l] eqn:E; [done|]. exfalso.
        assert (p ∈ walk_files ignore_dirs (path_join dirpath name) sub)
          as Hp by (rewrite E; left).
        apply elem_of_walk_files in Hp as (segs & f & Hat & _).
        apply (Hunused (name :: segs) f name); [by econstructor|left|done].
      + rewrite !bool_decide_false; [done..|].
        intros [?|?]%elem_of_union; done. }
  clear IH Hunused. induction dirnames as [|d dirnames IHd]; [done|].
  cbn [flat_map]. rewrite Hsame by left. f_equal.
  apply IHd. intros d' Hd'. apply Hsame. by right.
Qed.

Lemma plain_names_at t segs f name :
  plain_names t = true → file_at t segs f → name ∈ segs →
  Str.free_of os_sep name = true.
Proof.
  intros Hplain Hat. revert Hplain.
  induction Hat as [|dirnames filenames x sub segs f Hd Hat IH];
    intros Hplain Hname; [by apply elem_of_nil in Hname|].
  cbn [plain_names] in Hplain. rewrite forallb_forall in Hplain.
  apply list_elem_of_In, Hplain, andb_true_iff in Hd as [Hx Hsub].
  apply elem_of_cons in Hname as [->|Hname]; [done|]. by apply IH.
Qed.

End discovery.

(** X11. [find_python_files] returns the paths of the files whose name
    ends in [.py] and that lie below the root through directories none of
    which bears an ignored name, at whatever depth; whether the name of
    the file itself is an ignored name plays no role. *)
Theorem discovered_files root (ignore_dirs : gset string) t p :
  p ∈ find_python_files root ignore_dirs t ↔
  ∃ segs f, file_at t segs f ∧ Str.endswith f ".py" = true ∧
            Forall (λ s, s ∉ ignore_dirs) segs ∧
            p = path_below root (segs ++ [f]).
Proof. apply elem_of_walk_files. Qed.

(** X12. An ignored name that contains a slash prunes nothing: on a tree
    whose directory names have no slash, adding such names to the ignore
    set leaves the list of discovered files as it is. *)
Theorem slash_names_prune_nothing root (ignore_dirs extra : gset string) t :
  plain_names t = true →
  (∀ name, name ∈ extra → Str.free_of os_sep name = false) →
  find_python_files root (ignore_dirs ∪ extra) t
  = find_python_files root ignore_dirs t.
Proof.
  intros Hplain Hextra. apply walk_files_unused.
  intros segs f name Hat Hname Hin.
  apply (plain_names_at t segs f name Hplain Hat) in Hname.
  apply Hextra in Hin. congruence.
Qed.

Lemma slash_names_prune_nothing_witness :
  find_python_files "/r" ({[ ".git" ]} ∪ {[ "pkg/build"; "docs/_build" ]})
    sample_tree
  = ["/r/setup.py"; "/r/pkg/__init__.py"; "/r/pkg/core.py";
     "/r/pkg/build/gen.py"].
Proof.
  rewrite (slash_names_prune_nothing "/r" {[ ".git" ]}
             {[ "pkg/build"; "docs/_build" ]} sample_tree).
  - reflexivity.
  - reflexivity.
  - intros name. rewrite elem_of_union, !elem_of_singleton.
    by intros [->| ->].
Defined.

(** ** The ignore list *)

Section ignore_list.

Variable strip : string → string.

(** The name that one line of [.gitignore] contributes, if any. *)
Lemma elem_of_ignore_line ignore line name :
  name ∈ ignore_line strip ignore line ↔
  name ∈ ignore ∨
  (strip line ≠ "" ∧ Str.startswith (strip line) "#" = false ∧
   name ≠ "" ∧
   name = Str.lstrip ["*"; "/"]%char (Str.rstrip ["/"]%char (strip line))).
Proof.
  unfold ignore_line.
  destruct (String.eqb_spec (strip line) "") as [Hempty|Hline]; cbn [orb].
  { split; [by left|]. by intros [?|[? _]]. }
  destruct (Str.startswith (strip line) "#") eqn:Hcomment.
  { split; [by left|]. by intros [?|(_ & ? & _)]. }
  destruct (String.eqb_spec
              (Str.lstrip ["*"; "/"]%char (Str.rstrip ["/"]%char (strip line)))
              "") as [Hname|Hname].
  { split; [by left|]. intros [?|(_ & _ & Hne & Heq)]; [done|]. congruence. }
  rewrite elem_of_union, elem_of_singleton. split.
  - intros [?| ->]; [by left|by right].
  - intros [?|(_ & _ & _ & ->)]; [by left|by right].
Qed.

Lemma elem_of_ignore_lines lines ignore name :
  name ∈ foldl (ignore_line strip) ignore lines ↔
  name ∈ ignore ∨
  ∃ line, line ∈ lines ∧
    strip line ≠ "" ∧ Str.startswith (strip line) "#" = false ∧
    name ≠ "" ∧
    name = Str.lstrip ["*"; "/"]%char (Str.rstrip ["/"]%char (strip line)).
Proof.
  revert ignore. induction lines as [|l lines IH]; intros ignore; cbn [foldl].
  - split; [by left|]. intros [?|(line & Hin & _)]; [done|].
    by apply elem_of_nil in Hin.
  - rewrite IH, elem_of_ignore_line. split.
    + intros [[?|Hl]|(line & Hin & Hline)]; [by left|right..].
      * exists l. split; [left|done].
      * exists line. split; [by right|done].
    + intros [?|(line & [->|Hin]%elem_of_cons & Hline)].
      * by left; left.
      * by left; right.
      * right. by exists line.
Qed.

End ignore_list.

(** X13. The ignore set holds [.git] and [__pycache__], and beside them
    the names made from the lines of [.gitignore] that are, once
    stripped, neither empty nor a comment: the line without its trailing
    slashes and its leading stars and slashes, when something is left of
    it.  Such a name is not empty, does not begin with a star or a slash
    and does not end in a slash; without [.gitignore] the set holds the
    two names only. *)
Theorem ignore_list strip gitignore name :
  (name ∈ load_ignore_dirs strip gitignore ↔
   name = ".git" ∨ name = "__pycache__" ∨
   ∃ lines line,
     gitignore = Some lines ∧ line ∈ lines ∧
     strip line ≠ "" ∧ Str.startswith (strip line) "#" = false ∧
     name ≠ "" ∧
     name = Str.lstrip ["*"; "/"]%char (Str.rstrip ["/"]%char (strip line))) ∧
  (name ∈ load_ignore_dirs strip gitignore →
   name = ".git" ∨ name = "__pycache__" ∨
   name ≠ "" ∧ Str.startswith name "*" = false ∧
   Str.startswith name "/" = false ∧ Str.endswith name "/" = false).
Proof.
  assert (name ∈ load_ignore_dirs strip gitignore ↔
          name = ".git" ∨ name = "__pycache__" ∨
          ∃ lines line,
            gitignore = Some lines ∧ line ∈ lines ∧
            strip line ≠ "" ∧ Str.startswith (strip line) "#" = false ∧
            name ≠ "" ∧
            name = Str.lstrip ["*"; "/"]%char
                     (Str.rstrip ["/"]%char (strip line))) as Hiff.
  { unfold load_ignore_dirs. destruct gitignore as [lines|].
    - rewrite elem_of_ignore_lines, elem_of_union, !elem_of_singleton. split.
      + intros [[?|?]|(line & Hin & Hline)]; [by left|by right; left|].
        right. right. by exists lines, line.
      + intros [?|[?|(lines' & line & [= <-] & Hin & Hline)]];
          [by left; left|by left; right|].
        right. by exists line.
    - rewrite elem_of_union, !elem_of_singleton. split.
      + intros [?|?]; [by left|by right; left].
      + intros [?|[?|(lines & line & [=] & _)]]; [by left|by right]. }
  split; [done|]. intros [?|[?|(lines & line & _ & _ & _ & _ & Hne & ->)]]%Hiff;
    [by left|by right; left|].
  right. right. split; [done|]. apply TextFacts.strip_slashes.
Qed.

Lemma ignore_list_witness :
  load_ignore_dirs ascii_strip (Some sample_gitignore)
  = {[ ".git"; "__pycache__"; "build"; ".pyc"; "docs/_build"; "dist" ]} ∧
  "build" ∈ load_ignore_dirs ascii_strip (Some sample_gitignore) ∧
  Str.endswith "build" "/" = false.
Proof.
  split; [evaluate|].
  assert ("build" ∈ load_ignore_dirs ascii_strip (Some sample_gitignore))
    as Hbuild.
  { apply (proj1 (ignore_list ascii_strip (Some sample_gitignore) "build")).
    right. right. exists sample_gitignore, ("build/" +:+ nl).
    split; [done|]. split; [by repeat constructor|]. by vm_compute. }
  split; [done|].
  destruct (proj2 (ignore_list ascii_strip (Some sample_gitignore) "build")
              Hbuild) as [[=]|[[=]|(_ & _ & _ & Hend)]].
  exact Hend.
Defined.

(** ** The entry point *)

Section entry_facts.

Lemma walk_files_other_file (ignore_dirs : gset string) dirpath dirnames
    before f after :
  Str.endswith f ".py" = false →
  walk_files ignore_dirs dirpath (Dir dirnames (before ++ f :: after))
  = walk_files ignore_dirs dirpath (Dir dirnames (before ++ after)).
Proof.
  intros Hf. cbn [walk_files]. rewrite !filter_app, filter_cons_False; [done|].
  by rewrite Hf.
Qed.

End entry_facts.

(** X14. With the subdirectories of the root, the content of the files
    and the content of [.gitignore] as they are, a file of the root
    directory (an entry that is no directory) whose name does not end in
    [.py] and is not [.gitignore], such as the report [mapping.md] that
    [main] writes there, does not change what [main] logs, writes and
    prints: a second run on a project that the first run alone has
    touched gives the report of the first. *)
Theorem rerun_same_report relpath parse_file unparse strip root gitignore
    dirnames before f after :
  Str.endswith f ".py" = false → f ≠ ".gitignore" →
  main relpath parse_file unparse strip root gitignore
    (Dir dirnames (before ++ f :: after))
  = main relpath parse_file unparse strip root gitignore
      (Dir dirnames (before ++ after)).
Proof.
  intros Hf _. unfold main, find_python_files.
  by rewrite walk_files_other_file.
Qed.

Lemma rerun_same_report_witness :
  main Project.relpath (Project.parse_in sample_files) Project.unparse
    ascii_strip "/r" (Some sample_gitignore)
    (Dir [("pkg", Dir [] ["core.py"])] (["setup.py"] ++ "mapping.md" :: []))
  = main Project.relpath (Project.parse_in sample_files) Project.unparse
      ascii_strip "/r" (Some sample_gitignore)
      (Dir [("pkg", Dir [] ["core.py"])] (["setup.py"] ++ [])).
Proof.
  apply (rerun_same_report Project.relpath (Project.parse_in sample_files)
           Project.unparse ascii_strip "/r" (Some sample_gitignore)
           [("pkg", Dir [] ["core.py"])] ["setup.py"] "mapping.md" []).
  - reflexivity.
  - done.
Defined.

(** X15. Every entry of the registry that [main] builds stems from a
    file that parses, whose name ends in [.py], and that lies below the
    root through directories none of which is called [.git] or
    [__pycache__] or bears another name of the ignore list. *)
Theorem registered_files_discovered relpath parse_file strip root gitignore t
    q file_path f class_name :
  let ignore_dirs := load_ignore_dirs strip gitignore in
  let py_files := find_python_files root ignore_dirs t in
  all_functions (collect_functions_and_imports relpath parse_file py_files root)
    !! q = Some (file_path, f, class_name) →
  ∃ segs name body,
    file_at t segs name ∧ Str.endswith name ".py" = true ∧
    Forall (λ s, s ∉ ignore_dirs) segs ∧
    (".git" ∉ segs) ∧ ("__pycache__" ∉ segs) ∧
    file_path = path_below root (segs ++ [name]) ∧
    parse_file file_path = inr body.
Proof.
  intros ignore_dirs py_files Hq.
  apply registry_lookup_origin in Hq as (file_path' & Hin & Horigin).
  apply origin_file in Horigin as [-> [body Hbody]].
  apply elem_of_walk_files in Hin as (segs & name & Hat & Hpy & Hsegs & Hpath).
  exists segs, name, body. split; [done|]. split; [done|]. split; [done|].
  rewrite Forall_forall in Hsegs.
  split; [|split; [|done]]; intros Hs%Hsegs; apply Hs;
    apply (proj1 (ignore_list strip gitignore _)); auto.
Qed.

Lemma registered_files_discovered_witness :
  let py_files :=
    find_python_files "/r"
      (load_ignore_dirs ascii_strip (Some sample_gitignore)) sample_tree in
  py_files = ["/r/setup.py"; "/r/pkg/__init__.py"; "/r/pkg/core.py"] ∧
  ∃ segs name body,
    file_at sample_tree segs name ∧ (".git" ∉ segs) ∧
    "/r/pkg/core.py" = path_below "/r" (segs ++ [name]) ∧
    Project.parse_in sample_files "/r/pkg/core.py" = inr body.
Proof.
  intros py_files. split; [evaluate|].
  destruct (registered_files_discovered Project.relpath
              (Project.parse_in sample_files) ascii_strip "/r"
              (Some sample_gitignore) sample_tree "pkg.core.run"
              "/r/pkg/core.py" (Project.fn "run" [] []) None)
    as (segs & name & body & Hat & _ & _ & Hgit & _ & Hpath & Hbody);
    [evaluate|].
  by exists segs, name, body.
Defined.

(** X16. When no definition is registered (no Python file is found, or
    none of the files found parses or defines a function at its top
    level or in a class there), the report that [main] writes to
    [mapping.md] in the root consists of its two heading lines, each
    followed by an empty line, and the first log line gives the number
    of files found. *)
Theorem report_without_definitions relpath parse_file unparse strip root
    gitignore t :
  let py_files :=
    find_python_files root (load_ignore_dirs strip gitignore) t in
  let c := collect_functions_and_imports relpath parse_file py_files root in
  all_functions c = ∅ →
  main relpath parse_file unparse strip root gitignore t
  = mk_main_result
      (("Found " +:+ pretty (length py_files) +:+ " Python files")
       :: error_log c)
      (path_join root "mapping.md",
       "# Project-wide Function Mapping" +:+ nl +:+ nl +:+
       "## Functions (with cross-file call analysis)" +:+ nl)
      ["Wrote mapping.md"].
Proof.
  intros py_files c Hempty. unfold main. fold py_files. fold c.
  rewrite Hempty. reflexivity.
Qed.

Lemma report_without_definitions_witness :
  main Project.relpath (Project.parse_in []) Project.unparse ascii_strip
    "/r" None (Dir [("docs", Dir [] ["index.md"])] ["README.md"; "bad.py"])
  = mk_main_result
      [ "Found 1 Python files";
        "Failed to parse /r/bad.py: [Errno 2] No such file or directory" ]
      ("/r/mapping.md",
       "# Project-wide Function Mapping" +:+ nl +:+ nl +:+
       "## Functions (with cross-file call analysis)" +:+ nl)
      ["Wrote mapping.md"].
Proof.
  rewrite (report_without_definitions Project.relpath (Project.parse_in [])
             Project.unparse ascii_strip "/r" None
             (Dir [("docs", Dir [] ["index.md"])] ["README.md"; "bad.py"])).
  - evaluate.
  - evaluate.
Defined.

(** ** Module names and paths *)

Section module_paths.

Variable relpath : string → string → string.

Lemma free_of_app c a b :
  Str.free_of c (a +:+ b) = Str.free_of c a && Str.free_of c b.
Proof.
  induction a as [|x a IH]; [done|]. rewrite StrFacts.app_cons. simpl.
  rewrite IH. by destruct (Ascii.eqb x c).
Qed.

(** The module name of a Python file that is no package initializer. *)
Lemma module_name_of_path file_path root dirs stem :
  Forall (λ seg, Str.free_of os_sep seg = true) (dirs ++ [stem]) →
  relpath file_path root = Str.join "/" (dirs ++ [stem +:+ ".py"]) →
  stem ≠ "__init__" →
  get_module_name relpath file_path root
  = Some (Str.join "." (dirs ++ [stem])).
Proof.
  intros Hfree Hrel Hstem.
  rewrite (get_module_name_parts relpath file_path root dirs (stem +:+ ".py")).
  - rewrite StrFacts.endswith_app.
    change 3 with (String.length ".py"). rewrite StrFacts.drop_end_app.
    apply String.eqb_neq in Hstem. by rewrite Hstem.
  - rewrite Hrel. apply StrFacts.split_join; [by destruct dirs|].
    apply Forall_app in Hfree as [Hdirs Hlast]. apply Forall_app.
    split; [done|]. constructor; [|done].
    apply Forall_inv in Hlast.
    change (Str.free_of os_sep (stem +:+ ".py") = true).
    by rewrite free_of_app, Hlast.
Qed.

End module_paths.

(** X17. Two Python files below the root, neither of them a package
    initializer, whose directory names and stems contain no dot, have
    the same module name only if they have the same root-relative path:
    clashes of module names need a package initializer or a name with a
    dot in it. *)
Theorem module_name_injective relpath root file_path file_path'
    dirs stem dirs' stem' :
  Forall (λ seg, Str.free_of os_sep seg = true ∧ Str.free_of dot seg = true)
         (dirs ++ [stem]) →
  Forall (λ seg, Str.free_of os_sep seg = true ∧ Str.free_of dot seg = true)
         (dirs' ++ [stem']) →
  relpath file_path root = Str.join "/" (dirs ++ [stem +:+ ".py"]) →
  relpath file_path' root = Str.join "/" (dirs' ++ [stem' +:+ ".py"]) →
  stem ≠ "__init__" → stem' ≠ "__init__" →
  get_module_name relpath file_path root
  = get_module_name relpath file_path' root →
  dirs = dirs' ∧ stem = stem' ∧
  relpath file_path root = relpath file_path' root.
Proof.
  intros Hfree Hfree' Hrel Hrel' Hstem Hstem' Hsame.
  apply Forall_and in Hfree as [Hsep Hdot].
  apply Forall_and in Hfree' as [Hsep' Hdot'].
  rewrite (module_name_of_path relpath file_path root dirs stem) in Hsame
    by done.
  rewrite (module_name_of_path relpath file_path' root dirs' stem') in Hsame
    by done.
  injection Hsame as Hsame.
  apply (f_equal (Str.split dot)) in Hsame.
  change "."%string with (String dot "") in Hsame.
  rewrite !StrFacts.split_join in Hsame;
    [|by destruct dirs'|done|by destruct dirs|done].
  apply app_inj_tail in Hsame as [-> ->]. by rewrite Hrel, Hrel'.
Qed.

Lemma module_name_injective_witness :
  get_module_name Project.relpath "/r/pkg/core.py" "/r" = Some "pkg.core" ∧
  ["pkg"] = ["pkg"] ∧ "core" = "core" ∧
  Project.relpath "/r/pkg/core.py" "/r" = Project.relpath "/r/pkg/core.py" "/r".
Proof.
  split; [reflexivity|].
  apply (module_name_injective Project.relpath "/r" "/r/pkg/core.py"
           "/r/pkg/core.py" ["pkg"] "core" ["pkg"] "core");
    [by repeat constructor | by repeat constructor | reflexivity
    | reflexivity | done | done | reflexivity].
Defined.
